(** * svg_to_template: path parsing, ring simplification, centroids, adjacency

    A shallow embedding of [src/maps/svg_to_template.py] and the properties
    its specification states about it.

    Modelling conventions.
    - A Python [float] is modelled by an exact rational ([Q], kept in lowest
      terms).  Binary64 rounding error is outside the model; every literal
      used in the examples is a small number that binary64 represents
      exactly.  The infinities and NaN, on which [round] raises, are outside
      this model too: [simplify_coords], the function that rounds what the
      parser yields, is modelled a second time on numbers that include
      them, in the module [Binary64], and the two models agree on finite
      numbers ([simplify_coords_agrees]).
    - A Python [int] is a [Z].
    - A path string is a Rocq [string]: a sequence of code points 0..255.
      On that range the classes [\s] and [\d] of Python's [re] module, and
      [str.strip], are the ones written out in [is_space] and [is_digit].
    - A raised exception is a value [Raise e] of the [result] type; a
      function that cannot raise returns its value directly.
    - The geometry library (shapely) is not part of the repository.  Its
      operations are the fields of the class [GeometryEngine]; like every
      other call they return a [result], so that a library call may raise. *)

From Stdlib Require Import ZArith QArith Qabs Qround Qreduction Qminmax List String Ascii Bool Lia PeanoNat.
From Stdlib Require Import DecimalString DecimalNat Sorted Permutation Lqa.
Import ListNotations.

Local Open Scope Z_scope.

(** ** Python values *)

Module Py.

Inductive exn : Type :=
| IndexError
| KeyError
| ValueError
| ZeroDivisionError
| OverflowError
| GeometryError.

Inductive result (A : Type) : Type :=
| Ok (a : A)
| Raise (e : exn).

Arguments Ok {A} a.
Arguments Raise {A} e.

Definition bind {A B : Type} (r : result A) (k : A -> result B) : result B :=
  match r with
  | Ok a => k a
  | Raise e => Raise e
  end.

(** [for x in l: body] over a state, stopping at the first exception. *)
Fixpoint for_each {A S : Type} (l : list A) (body : A -> S -> result S) (s : S)
  : result S :=
  match l with
  | [] => Ok s
  | a :: rest => bind (body a s) (for_each rest body)
  end.

(** [range(start, stop, 2)]. *)
Definition range2 (start stop : nat) : list nat :=
  map (fun k => (start + 2 * k)%nat) (seq 0 ((stop - start + 1) / 2)).

(** [enumerate(l)]. *)
Definition enumerate {A : Type} (l : list A) : list (nat * A) :=
  combine (seq 0 (List.length l)) l.

(** [l[i]] on a list. *)
Definition index {A : Type} (l : list A) (i : nat) : result A :=
  match nth_error l i with
  | Some a => Ok a
  | None => Raise IndexError
  end.

Definition float : Type := Q.
Definition point : Type := (float * float)%type.
Definition ipoint : Type := (Z * Z)%type.

Definition fadd (a b : float) : float := Qred (a + b).
Definition fmul (a b : float) : float := Qred (a * b).
Definition fdiv (a b : float) : float := Qred (a / b).
Definition float_of_int (z : Z) : float := inject_Z z.

(** [round(x)] with one argument: nearest integer, ties to the even one. *)
Definition round (x : float) : Z :=
  let f := Qfloor x in
  let r := (x - inject_Z f)%Q in
  match Qcompare r (1 # 2) with
  | Lt => f
  | Gt => f + 1
  | Eq => if Z.even f then f else f + 1
  end.

Definition round_point (p : point) : ipoint := (round (fst p), round (snd p)).
Definition point_of_ipoint (p : ipoint) : point :=
  (float_of_int (fst p), float_of_int (snd p)).

(** A Python [str] as its code points; used for province identifiers. *)
Definition str : Type := list Z.

(** [chr(i)]. *)
Definition chr (i : Z) : result str :=
  if (0 <=? i) && (i <=? 1114111) then Ok [i] else Raise ValueError.

End Py.

Import Py.

Declare Scope py_scope.
Delimit Scope py_scope with py.
Notation "x <- c ;; k" := (bind c (fun x => k))
  (at level 61, c at next level, right associativity) : py_scope.
Local Open Scope py_scope.

(** ** Regular expressions of the parser, on code points 0..255 *)

Module Re.

Definition code (c : ascii) : N := N_of_ascii c.

(** [\s]: characters for which [str.isspace] holds. *)
Definition is_space (c : ascii) : bool :=
  let n := code c in
  (((9 <=? n) && (n <=? 13)) || ((28 <=? n) && (n <=? 32))
   || (n =? 133) || (n =? 160))%N.

(** [\d]: decimal digits. *)
Definition is_digit (c : ascii) : bool :=
  let n := code c in ((48 <=? n) && (n <=? 57))%N.

(** [[MLZmlz]]. *)
Definition is_command (c : ascii) : bool :=
  existsb (Ascii.eqb c) ["M"; "L"; "Z"; "m"; "l"; "z"]%char.

(** [[\d\s,.-]]. *)
Definition is_arg_char (c : ascii) : bool :=
  is_digit c || is_space c || existsb (Ascii.eqb c) [","; "."; "-"]%char.

Fixpoint take_while (p : ascii -> bool) (s : list ascii) : list ascii :=
  match s with
  | c :: rest => if p c then c :: take_while p rest else []
  | [] => []
  end.

Fixpoint drop_while (p : ascii -> bool) (s : list ascii) : list ascii :=
  match s with
  | c :: rest => if p c then drop_while p rest else s
  | [] => []
  end.

(** [s.strip()]. *)
Definition strip (s : list ascii) : list ascii :=
  rev (drop_while is_space (rev (drop_while is_space s))).

(** [re.sub(r'\s+', ' ', s)]: every maximal run of white space becomes one
    space; [in_run] tells that the previous character was white space. *)
Fixpoint sub_spaces (in_run : bool) (s : list ascii) : list ascii :=
  match s with
  | [] => []
  | c :: rest =>
      if is_space c
      then if in_run then sub_spaces true rest
           else " "%char :: sub_spaces true rest
      else c :: sub_spaces false rest
  end.

(** One match of [([MLZmlz])\s*([\d\s,.-]+)?] at the head of [s]: the two
    groups and the text after the match.  All three parts are greedy and
    nothing follows them, so no backtracking changes the match; an
    unmatched second group is reported by [findall] as the empty string. *)
Definition match_command (s : list ascii)
  : option ((ascii * list ascii) * list ascii) :=
  match s with
  | c :: rest =>
      if is_command c
      then let rest1 := drop_while is_space rest in
           Some ((c, take_while is_arg_char rest1),
                 drop_while is_arg_char rest1)
      else None
  | [] => None
  end.

(** [re.findall] for the command pattern: leftmost matches, each search
    resuming where the previous match ended.  A match consumes at least one
    character, so [length s] steps are enough. *)
Fixpoint findall_commands_from (fuel : nat) (s : list ascii)
  : list (ascii * list ascii) :=
  match fuel with
  | O => []
  | S fuel' =>
      match s with
      | [] => []
      | _ :: rest =>
          match match_command s with
          | Some (groups, after) =>
              groups :: findall_commands_from fuel' after
          | None => findall_commands_from fuel' rest
          end
      end
  end.

Definition findall_commands (s : list ascii) : list (ascii * list ascii) :=
  findall_commands_from (List.length s) s.

(** One match of [-?\d+\.?\d*] at the head of [s]. *)
Definition match_digits (s : list ascii) : option (list ascii * list ascii) :=
  match s with
  | d :: _ =>
      if is_digit d
      then let int_part := take_while is_digit s in
           let rest := drop_while is_digit s in
           match rest with
           | dot :: rest' =>
               if Ascii.eqb dot "."%char
               then Some (int_part ++ dot :: take_while is_digit rest',
                          drop_while is_digit rest')
               else Some (int_part, rest)
           | [] => Some (int_part, rest)
           end
      else None
  | [] => None
  end.

Definition match_number (s : list ascii) : option (list ascii * list ascii) :=
  match s with
  | c :: rest =>
      if Ascii.eqb c "-"%char
      then match match_digits rest with
           | Some (tok, after) => Some (c :: tok, after)
           | None => None
           end
      else match_digits s
  | [] => None
  end.

(** [re.findall(r'-?\d+\.?\d*', args)]. *)
Fixpoint findall_numbers_from (fuel : nat) (s : list ascii)
  : list (list ascii) :=
  match fuel with
  | O => []
  | S fuel' =>
      match s with
      | [] => []
      | _ :: rest =>
          match match_number s with
          | Some (tok, after) => tok :: findall_numbers_from fuel' after
          | None => findall_numbers_from fuel' rest
          end
      end
  end.

Definition findall_numbers (s : list ascii) : list (list ascii) :=
  findall_numbers_from (List.length s) s.

Definition digit_value (c : ascii) : Z := Z.of_N (code c) - 48.

Definition digits_value (ds : list ascii) : Z :=
  fold_left (fun acc d => 10 * acc + digit_value d) ds 0.

(** [float(x)] for a token [x] of the number pattern. *)
Definition float_of_token (tok : list ascii) : float :=
  let negative := match tok with
                  | c :: _ => Ascii.eqb c "-"%char
                  | [] => false
                  end in
  let body := if negative then tl tok else tok in
  let int_part := take_while is_digit body in
  let frac_part := take_while is_digit (tl (drop_while is_digit body)) in
  let mantissa := digits_value (int_part ++ frac_part) in
  let scale := Z.to_pos (10 ^ Z.of_nat (List.length frac_part)) in
  Qred ((if negative then - mantissa else mantissa) # scale).

End Re.

(** ** PathParser: [parse_svg_path_to_coords] *)

Module PathParser.

Import Re.

(** Loop state: the points collected so far and the cursor. *)
Record cursor : Type := mkCursor {
  coords : list point;
  current_x : float;
  current_y : float
}.

(** Body of the loops of the absolute commands:
    [current_x, current_y = numbers[i], numbers[i+1]; coords.append(...)]. *)
Definition step_absolute (numbers : list float) (i : nat) (st : cursor)
  : result cursor :=
  x <- index numbers i ;;
  y <- index numbers (i + 1) ;;
  Ok (mkCursor (coords st ++ [(x, y)]) x y).

(** Body of the loops of the relative commands:
    [current_x += numbers[i]; current_y += numbers[i+1]; coords.append(...)]. *)
Definition step_relative (numbers : list float) (i : nat) (st : cursor)
  : result cursor :=
  dx <- index numbers i ;;
  let x := fadd (current_x st) dx in
  dy <- index numbers (i + 1) ;;
  let y := fadd (current_y st) dy in
  Ok (mkCursor (coords st ++ [(x, y)]) x y).

(** [c.upper()] for the command letters. *)
Definition upper (c : ascii) : ascii :=
  let n := code c in
  if ((97 <=? n) && (n <=? 122))%N then ascii_of_N (n - 32) else c.

Definition numbers_of (args : list ascii) : list float :=
  map float_of_token (findall_numbers args).

(** One iteration of [for cmd, args in commands].  Without arguments the
    iteration ends at once: by [continue] for a close command, by reaching
    the end of the body for any other. *)
Definition run_command (cmd : ascii) (args : list ascii) (st : cursor)
  : result cursor :=
  match args with
  | [] => if Ascii.eqb (upper cmd) "Z"%char then Ok st else Ok st
  | _ :: _ =>
      let numbers := numbers_of args in
      let n := List.length numbers in
      if Ascii.eqb cmd "M"%char then
        st1 <- step_absolute numbers 0 st ;;
        for_each (range2 2 n) (step_absolute numbers) st1
      else if Ascii.eqb cmd "m"%char then
        st1 <- step_relative numbers 0 st ;;
        for_each (range2 2 n) (step_relative numbers) st1
      else if Ascii.eqb cmd "L"%char then
        for_each (range2 0 n) (step_absolute numbers) st
      else if Ascii.eqb cmd "l"%char then
        for_each (range2 0 n) (step_relative numbers) st
      else Ok st
  end.

(** The numbers of a command are enough for the indices its loop reads:
    pairs for [L] and [l], at least one pair, then pairs, for [M] and [m].
    A command without arguments, or [Z] and [z], reads none. *)
Definition arity_ok (c : ascii * list ascii) : bool :=
  match snd c with
  | [] => true
  | _ :: _ =>
      let n := List.length (numbers_of (snd c)) in
      if Ascii.eqb (fst c) "M"%char || Ascii.eqb (fst c) "m"%char
      then (2 <=? n)%nat && Nat.even n
      else if Ascii.eqb (fst c) "L"%char || Ascii.eqb (fst c) "l"%char
           then Nat.even n
           else true
  end.

Definition commands_of (path_data : string) : list (ascii * list ascii) :=
  findall_commands (sub_spaces false (strip (list_ascii_of_string path_data))).

Definition parse_svg_path_to_coords (path_data : string)
  : result (list point) :=
  st <- for_each (commands_of path_data)
          (fun c st => run_command (fst c) (snd c) st)
          (mkCursor [] 0%Q 0%Q) ;;
  Ok (coords st).

End PathParser.

Import PathParser.


(** ** Insertion-ordered dictionaries

    A Python [dict] keeps its keys in the order of their first insertion,
    and [detect_neighbors] iterates over [list(polygons.keys())]; so a
    dictionary is an association list with unique keys. *)

Module Dict.

Section Dict.

Context {K V : Type} (K_eq_dec : forall x y : K, {x = y} + {x <> y}).

Definition t : Type := list (K * V).

(** [d.get(k)]. *)
Fixpoint get (d : t) (k : K) : option V :=
  match d with
  | [] => None
  | (k', v) :: rest => if K_eq_dec k k' then Some v else get rest k
  end.

(** [d[k] = v]: an existing key keeps its position. *)
Fixpoint set (d : t) (k : K) (v : V) : t :=
  match d with
  | [] => [(k, v)]
  | (k', v') :: rest =>
      if K_eq_dec k k' then (k, v) :: rest else (k', v') :: set rest k v
  end.

(** [list(d.keys())]. *)
Definition keys (d : t) : list K := map fst d.

(** [d[k]]. *)
Definition lookup (d : t) (k : K) : result V :=
  match get d k with
  | Some v => Ok v
  | None => Raise KeyError
  end.

End Dict.

End Dict.

(** ** The geometry library *)

Module Geometry.

(** The operations of shapely that the program calls, on one type of
    geometries.  [boundary] is not called by the program; the specification
    speaks of it. *)
Class GeometryEngine : Type := {
  geometry : Type;
  (** [Polygon(coords)] *)
  Polygon : list point -> result geometry;
  (** [g.simplify(tolerance, preserve_topology=True)] *)
  simplify : geometry -> float -> result geometry;
  (** [g.exterior.coords]: the closed coordinate sequence of the shell,
      its first coordinate repeated at the end *)
  exterior_coords : geometry -> result (list point);
  (** [(g.centroid.x, g.centroid.y)] *)
  centroid : geometry -> result point;
  (** [g.is_valid] *)
  is_valid : geometry -> result bool;
  (** [g.buffer(distance)] *)
  buffer : geometry -> float -> result geometry;
  (** [g.touches(h)] *)
  touches : geometry -> geometry -> result bool;
  (** [g.intersects(h)] *)
  intersects : geometry -> geometry -> result bool;
  (** [g.intersection(h)] *)
  intersection : geometry -> geometry -> result geometry;
  (** [g.length] *)
  geom_length : geometry -> result float;
  (** [g.boundary] *)
  boundary : geometry -> result geometry
}.

End Geometry.

Import Geometry.

(** ** Province records *)

(** A province as [extract_provinces_from_svg] builds it. *)
Module Extracted.
Record t : Type := mk {
  original_title : string;
  original_id : string;
  coordinates : list ipoint;
  centroid : ipoint;
  isCoastal : bool
}.
End Extracted.

(** A province once [assign_province_ids] has set its ['id']. *)
Module Province.
Record t : Type := mk {
  id : str;
  original_title : string;
  original_id : string;
  coordinates : list ipoint;
  centroid : ipoint;
  isCoastal : bool
}.
End Province.

Definition str_eq_dec : forall x y : str, {x = y} + {x <> y} :=
  list_eq_dec Z.eq_dec.

(** ** RingSimplifier, CentroidCalculator, AdjacencyDetector, pipeline *)

Section Core.

Context {E : GeometryEngine}.

(** The [try] block of [simplify_coords], up to the shell it converts:
    [simplified.exterior.coords] after the quality floor. *)
Definition simplified_shell (coords : list point) (tolerance : float)
  : result (list point) :=
  poly <- Polygon coords ;;
  simplified <- simplify poly tolerance ;;
  ext <- exterior_coords simplified ;;
  simplified <- (if (List.length ext <? 6)%nat
                 then simplify poly (fmul tolerance (1 # 2))
                 else Ok simplified) ;;
  exterior_coords simplified.

(** The [try] block of [simplify_coords]: the shell without its last
    coordinate, rounded. *)
Definition simplify_attempt (coords : list point) (tolerance : float)
  : result (list ipoint) :=
  ext <- simplified_shell coords tolerance ;;
  Ok (map round_point (removelast ext)).

Definition simplify_coords (coords : list point) (tolerance : float)
  : list ipoint :=
  if (List.length coords <? 4)%nat then map round_point coords
  else match simplify_attempt coords tolerance with
       | Ok ring => ring
       | Raise _ => map round_point coords
       end.

(** [a / b] on [int]s. *)
Definition true_div (a b : Z) : result float :=
  if b =? 0 then Raise ZeroDivisionError else Ok (fdiv (inject_Z a) (inject_Z b)).

Definition sum (l : list Z) : Z := fold_left Z.add l 0.

Definition len {A : Type} (l : list A) : Z := Z.of_nat (List.length l).

(** [Polygon(coords).centroid]. *)
Definition polygon_centroid (coords : list ipoint) : result point :=
  poly <- Polygon (map point_of_ipoint coords) ;;
  centroid poly.

Definition calculate_centroid (coords : list ipoint) : result ipoint :=
  match (c <- polygon_centroid coords ;;
         Ok (round (fst c), round (snd c))) with
  | Ok p => Ok p
  | Raise _ =>
      x_avg <- true_div (sum (map fst coords)) (len coords) ;;
      y_avg <- true_div (sum (map snd coords)) (len coords) ;;
      Ok (round x_avg, round y_avg)
  end.

(** The [try] block that builds one polygon of [detect_neighbors]. *)
Definition build_polygon (coords : list ipoint) : result geometry :=
  poly <- Polygon (map point_of_ipoint coords) ;;
  valid <- is_valid poly ;;
  if valid then Ok poly else buffer poly 0%Q.

Definition build_polygons (provinces : list Province.t)
  : Dict.t (K := str) (V := geometry) :=
  fold_left
    (fun polygons province =>
       match build_polygon (Province.coordinates province) with
       | Ok poly => Dict.set str_eq_dec polygons (Province.id province) poly
       | Raise _ => polygons
       end)
    provinces [].

(** [{p['id']: [] for p in provinces}]. *)
Definition empty_neighbors (provinces : list Province.t)
  : Dict.t (K := str) (V := list str) :=
  fold_left (fun d p => Dict.set str_eq_dec d (Province.id p) [])
    provinces [].

(** [neighbors[k].append(v)]. *)
Definition append_at (neighbors : Dict.t (K := str) (V := list str))
  (k v : str) : result (Dict.t (K := str) (V := list str)) :=
  l <- Dict.lookup str_eq_dec neighbors k ;;
  Ok (Dict.set str_eq_dec neighbors k (l ++ [v])).

(** The two conditions guarding the registration of a pair:
    [poly1.touches(poly2) or poly1.intersects(poly2)], then
    [poly1.intersection(poly2).length > 1]. *)
Definition shares_border (poly1 poly2 : geometry) : result bool :=
  t <- touches poly1 poly2 ;;
  contact <- (if t then Ok true else intersects poly1 poly2) ;;
  if contact
  then inter <- intersection poly1 poly2 ;;
       l <- geom_length inter ;;
       Ok (negb (Qle_bool l 1))
  else Ok false.

(** The [try] block of the pair loop.  An exception leaves [neighbors] as
    the statements before it made it. *)
Definition check_pair (neighbors : Dict.t (K := str) (V := list str))
  (id1 id2 : str) (poly1 poly2 : geometry)
  : Dict.t (K := str) (V := list str) :=
  match shares_border poly1 poly2 with
  | Ok true =>
      match append_at neighbors id1 id2 with
      | Ok neighbors1 =>
          match append_at neighbors1 id2 id1 with
          | Ok neighbors2 => neighbors2
          | Raise _ => neighbors1
          end
      | Raise _ => neighbors
      end
  | Ok false => neighbors
  | Raise _ => neighbors
  end.

Definition check_adjacency (polygons : Dict.t (K := str) (V := geometry))
  (neighbors : Dict.t (K := str) (V := list str))
  : result (Dict.t (K := str) (V := list str)) :=
  let province_ids := Dict.keys polygons in
  for_each (enumerate province_ids)
    (fun i_id1 neighbors =>
       for_each (skipn (fst i_id1 + 1) province_ids)
         (fun id2 neighbors =>
            poly1 <- Dict.lookup str_eq_dec polygons (snd i_id1) ;;
            poly2 <- Dict.lookup str_eq_dec polygons id2 ;;
            Ok (check_pair neighbors (snd i_id1) id2 poly1 poly2))
         neighbors)
    neighbors.

Definition detect_neighbors (provinces : list Province.t)
  : result (Dict.t (K := str) (V := list str)) :=
  check_adjacency (build_polygons provinces) (empty_neighbors provinces).

(** [neighbors.get(k, [])], as [create_template_json] reads the graph. *)
Definition neighbors_of (neighbors : Dict.t (K := str) (V := list str))
  (k : str) : list str :=
  match Dict.get str_eq_dec neighbors k with
  | Some l => l
  | None => []
  end.

(** What one iteration of the loop of [extract_provinces_from_svg] does
    with a path element. *)
Inductive extraction : Type :=
| Appended (p : Extracted.t)
| SkippedNoPathData
| SkippedTooFewCoordinates
| SkippedError (e : exn).

(** The loop body of [extract_provinces_from_svg], from the attributes of
    one path element: [title], [province_id] and [path.get('d')]. *)
Definition extract_province (title province_id : string)
  (path_data : option string) (tolerance : float) : extraction :=
  match path_data with
  | None => SkippedNoPathData
  | Some EmptyString => SkippedNoPathData
  | Some d =>
      match parse_svg_path_to_coords d with
      | Raise e => SkippedError e
      | Ok raw_coords =>
          if (List.length raw_coords <? 3)%nat then SkippedTooFewCoordinates
          else
            let coords := simplify_coords raw_coords tolerance in
            match calculate_centroid coords with
            | Raise e => SkippedError e
            | Ok c =>
                Appended (Extracted.mk title province_id coords c false)
            end
      end
  end.

(** The unweighted mean of the vertices, as the fallback of
    [calculate_centroid] computes it for a non-empty list. *)
Definition vertex_mean (coords : list ipoint) : point :=
  (fdiv (inject_Z (sum (map fst coords))) (inject_Z (len coords)),
   fdiv (inject_Z (sum (map snd coords))) (inject_Z (len coords))).

(** The condition under which a pair is registered, spelled out: contact
    reported by [touches] or, failing that, by [intersects]; then an
    intersection of the two polygons whose length exceeds 1. *)
Definition border_longer_than_one (poly1 poly2 : geometry) : Prop :=
  (touches poly1 poly2 = Ok true
   \/ (touches poly1 poly2 = Ok false /\ intersects poly1 poly2 = Ok true))
  /\ exists inter l,
       intersection poly1 poly2 = Ok inter
       /\ geom_length inter = Ok l /\ (1 < l)%Q.

End Core.

(** [assign_province_ids]: [province['id'] = chr(65 + idx)] for
    [idx, province in enumerate(provinces)], counting from [idx]. *)
Fixpoint assign_ids_from (idx : nat) (provinces : list Extracted.t)
  : result (list Province.t) :=
  match provinces with
  | [] => Ok []
  | p :: rest =>
      i <- chr (65 + Z.of_nat idx) ;;
      rest' <- assign_ids_from (S idx) rest ;;
      Ok (Province.mk i (Extracted.original_title p) (Extracted.original_id p)
            (Extracted.coordinates p) (Extracted.centroid p)
            (Extracted.isCoastal p) :: rest')
  end.

Definition assign_province_ids (provinces : list Extracted.t)
  : result (list Province.t) :=
  assign_ids_from 0 provinces.

(** ** Points in the plane *)

Module Plane.

Local Open Scope Q_scope.

Definition point_eqb (p q : point) : bool :=
  Qeq_bool (fst p) (fst q) && Qeq_bool (snd p) (snd q).


End Plane.

(** ** What the extraction relies on from the library's simplifier

    The topology-preserving simplifier does not collapse a ring: the shell
    it returns for a polygon of at least four coordinates has at least four
    coordinates, the closing one included. *)

Class SimplifierContract (E : GeometryEngine) : Prop := {
  simplified_floor :
    forall coords t p s e,
      Polygon coords = Ok p -> simplify p t = Ok s ->
      exterior_coords s = Ok e ->
      (4 <= List.length coords)%nat -> (4 <= List.length e)%nat
}.

(** ** A small geometry engine for the examples

    It closes rings as [Polygon] does, computes the area-weighted centroid
    by the signed-area formula, and knows contact, intersection and length
    for axis-aligned rectangles, as the library computes them there; on any
    other geometry these raise.  Its simplification routine is a parameter:
    [keep] leaves the shell as it is, [douglas_peucker] decimates it (the
    plain recursion, without the library's floor on the size of a ring and
    without its topology check: the examples need neither). *)

Module Mini.

Local Open Scope Q_scope.

Inductive shape : Type :=
| Area (shell : list point)      (* a polygon, by its closed shell *)
| Outline (shell : list point)   (* the boundary of that polygon *)
| Measured (l : Q).              (* an intersection, by its length *)

(** The closed coordinate sequence of a ring. *)
Definition close (coords : list point) : list point :=
  match coords with
  | [] => []
  | first :: _ =>
      if Plane.point_eqb (last coords first) first then coords
      else coords ++ [first]
  end.

(** *** Douglas-Peucker decimation *)






Definition keep (shell : list point) (tolerance : float) : list point :=
  shell.

(** *** Centroid by the signed-area formula *)

Definition shoelace (shell : list point) : list (point * Q) :=
  map (fun e => (((fst (fst e) + fst (snd e)), (snd (fst e) + snd (snd e))),
                 fst (fst e) * snd (snd e) - fst (snd e) * snd (fst e)))
      (combine shell (tl shell)).

Definition qsum (l : list Q) : Q := fold_left Qplus l 0.

Definition area_centroid (shell : list point) : result point :=
  let terms := shoelace shell in
  let a2 := qsum (map snd terms) in
  if Qeq_bool a2 0 then Raise GeometryError
  else Ok (Qred (qsum (map (fun t => fst (fst t) * snd t) terms) / (3 * a2)),
           Qred (qsum (map (fun t => snd (fst t) * snd t) terms) / (3 * a2))).

(** *** Axis-aligned rectangles *)

Record box : Type := mkBox { xmin : Q; ymin : Q; xmax : Q; ymax : Q }.

Definition one_coordinate_differs (p q : point) : bool :=
  xorb (Qeq_bool (fst p) (fst q)) (Qeq_bool (snd p) (snd q)).

(** The rectangle whose closed shell is [shell], if it is one. *)
Definition box_of (shell : list point) : option box :=
  match shell with
  | [a; b; c; d; a'] =>
      if Plane.point_eqb a a'
         && one_coordinate_differs a b && one_coordinate_differs b c
         && one_coordinate_differs c d && one_coordinate_differs d a
         && negb (Plane.point_eqb a c) && negb (Plane.point_eqb b d)
      then Some (mkBox (Qmin (fst a) (fst c)) (Qmin (snd a) (snd c))
                       (Qmax (fst a) (fst c)) (Qmax (snd a) (snd c)))
      else None
  | _ => None
  end.

(** Width and height of the overlap of two rectangles; negative when they
    are apart. *)
Definition overlap (a b : box) : Q * Q :=
  (Qmin (xmax a) (xmax b) - Qmax (xmin a) (xmin b),
   Qmin (ymax a) (ymax b) - Qmax (ymin a) (ymin b)).

Definition positive (x : Q) : bool := negb (Qle_bool x 0).

Definition boxes_intersect (a b : box) : bool :=
  let '(w, h) := overlap a b in Qle_bool 0 w && Qle_bool 0 h.

(** Common points, none of them interior to both. *)
Definition boxes_touch (a b : box) : bool :=
  let '(w, h) := overlap a b in
  boxes_intersect a b && negb (positive w && positive h).

(** Length of the intersection of two rectangles: the perimeter of the
    common rectangle, the length of the common segment, or zero. *)
Definition boxes_common_length (a b : box) : Q :=
  let '(w, h) := overlap a b in
  if boxes_intersect a b
  then if positive w && positive h then Qred (2 * (w + h)) else Qred (w + h)
  else 0.

(** Length that two parallel sides share, one at coordinate [u] spanning
    [lo1, hi1], the other at [v] spanning [lo2, hi2]. *)
Definition sides_common_length (u lo1 hi1 v lo2 hi2 : Q) : Q :=
  if Qeq_bool u v then Qmax 0 (Qmin hi1 hi2 - Qmax lo1 lo2) else 0.

(** Length of the intersection of the boundaries of two rectangles. *)
Definition outlines_common_length (a b : box) : Q :=
  Qred
    (qsum
       (flat_map
          (fun u =>
             map (fun v => sides_common_length u (ymin a) (ymax a)
                             v (ymin b) (ymax b))
                 [xmin b; xmax b])
          [xmin a; xmax a]
        ++
        flat_map
          (fun u =>
             map (fun v => sides_common_length u (xmin a) (xmax a)
                             v (xmin b) (xmax b))
                 [ymin b; ymax b])
          [ymin a; ymax a])).

Definition perimeter (a : box) : Q :=
  Qred (2 * ((xmax a - xmin a) + (ymax a - ymin a))).

Definition on_boxes {A : Type} (f : box -> box -> A) (s1 s2 : list point)
  : result A :=
  match box_of s1, box_of s2 with
  | Some a, Some b => Ok (f a b)
  | _, _ => Raise GeometryError
  end.

Definition engine (simplifier : list point -> float -> list point)
  : GeometryEngine :=
  {| geometry := shape;
     Polygon := fun coords =>
       if (List.length coords <? 3)%nat then Raise ValueError
       else Ok (Area (close coords));
     simplify := fun g tolerance =>
       match g with
       | Area shell => Ok (Area (simplifier shell tolerance))
       | _ => Raise GeometryError
       end;
     exterior_coords := fun g =>
       match g with
       | Area shell => Ok shell
       | _ => Raise GeometryError
       end;
     centroid := fun g =>
       match g with
       | Area shell => area_centroid shell
       | _ => Raise GeometryError
       end;
     is_valid := fun _ => Ok true;
     buffer := fun g _ => Ok g;
     touches := fun g h =>
       match g, h with
       | Area s1, Area s2 => on_boxes boxes_touch s1 s2
       | _, _ => Raise GeometryError
       end;
     intersects := fun g h =>
       match g, h with
       | Area s1, Area s2 => on_boxes boxes_intersect s1 s2
       | _, _ => Raise GeometryError
       end;
     intersection := fun g h =>
       match g, h with
       | Area s1, Area s2 =>
           l <- on_boxes boxes_common_length s1 s2 ;; Ok (Measured l)
       | Outline s1, Outline s2 =>
           l <- on_boxes outlines_common_length s1 s2 ;; Ok (Measured l)
       | _, _ => Raise GeometryError
       end;
     geom_length := fun g =>
       match g with
       | Measured l => Ok l
       | Area shell | Outline shell =>
           match box_of shell with
           | Some a => Ok (perimeter a)
           | None => Raise GeometryError
           end
       end;
     boundary := fun g =>
       match g with
       | Area shell => Ok (Outline shell)
       | _ => Raise GeometryError
       end |}.

End Mini.

(** ** Order of the keys and registered pairs *)

(** [x] occurs in [l] at an earlier position than [y]. *)
Inductive before {A : Type} : list A -> A -> A -> Prop :=
| before_here (x y : A) (l : list A) : In y l -> before (x :: l) x y
| before_later (z x y : A) (l : list A) : before l x y -> before (z :: l) x y.

Section Registered.

Context {E : GeometryEngine}.

(** [b] is registered with [a] by a pair drawn from [ids] in that order,
    whichever of the two comes first. *)
Definition registered (polygons : Dict.t (K := str) (V := geometry))
  (ids : list str) (a b : str) : Prop :=
  exists x y px py,
    before ids x y
    /\ Dict.get str_eq_dec polygons x = Some px
    /\ Dict.get str_eq_dec polygons y = Some py
    /\ shares_border px py = Ok true
    /\ ((a = x /\ b = y) \/ (a = y /\ b = x)).

End Registered.

(** ** The claims of the specification that the program does not meet,
       as the specification words them *)

Section Worded.

Context {E : GeometryEngine}.

(** Length of the intersection of the boundaries of two polygons. *)
Definition boundary_contact_length (p q : geometry) : result float :=
  bp <- boundary p ;;
  bq <- boundary q ;;
  inter <- intersection bp bq ;;
  geom_length inter.

(** "A pair is registered iff the intersection of the two polygon
    boundaries is longer than 1." *)
Definition registered_by_boundary_length (provinces : list Province.t)
  : Prop :=
  forall neighbors a b pa pb,
    detect_neighbors provinces = Ok neighbors ->
    Dict.get str_eq_dec (build_polygons provinces) a = Some pa ->
    Dict.get str_eq_dec (build_polygons provinces) b = Some pb ->
    a <> b ->
    (In b (neighbors_of neighbors a)
     <-> exists l, boundary_contact_length pa pb = Ok l /\ (1 < l)%Q).


End Worded.


(** Character classes of identifiers. *)
Definition is_upper_letter (c : Z) : bool := (65 <=? c) && (c <=? 90).
Definition is_lower_letter (c : Z) : bool := (97 <=? c) && (c <=? 122).
Definition is_ascii (c : Z) : bool := (0 <=? c) && (c <=? 127).

(** The identifier is one ASCII character that is not a letter. *)
Definition non_alphabetic_ascii (s : str) : bool :=
  match s with
  | [c] => is_ascii c && negb (is_upper_letter c || is_lower_letter c)
  | _ => false
  end.

Definition uppercase_letter (s : str) : bool :=
  match s with
  | [c] => is_upper_letter c
  | _ => false
  end.

(** ** The rest of the pipeline *)

(** *** Strings of the pipeline, on code points 0..255 *)

Module Text.

(** [c.lower()]: on this range the letters with a lowercase form are
    [A]..[Z] and the Latin-1 capitals 192..222 (not the sign 215), each 32
    below its lowercase form. *)
Definition lower_char (c : ascii) : ascii :=
  let n := Re.code c in
  if (((65 <=? n) && (n <=? 90))
      || ((192 <=? n) && (n <=? 222) && negb (n =? 215)))%N
  then ascii_of_N (n + 32)
  else c.

(** [s.lower()]. *)
Definition lower (s : list ascii) : list ascii := map lower_char s.

Fixpoint starts_with (s p : list ascii) : bool :=
  match p, s with
  | [], _ => true
  | _ :: _, [] => false
  | c :: p', d :: s' => Ascii.eqb c d && starts_with s' p'
  end.

(** [p in s] on strings: [p] occurs in [s] as a substring. *)
Fixpoint contains (s p : list ascii) : bool :=
  starts_with s p
  || match s with
     | [] => false
     | _ :: s' => contains s' p
     end.

(** [str(n)] for a non-negative [int]. *)
Definition decimal (n : nat) : string :=
  NilZero.string_of_uint (Nat.to_uint n).

(** [a <= b] on identifiers: code point by code point, a proper prefix
    first. *)
Fixpoint str_leb (a b : str) : bool :=
  match a, b with
  | [], _ => true
  | _ :: _, [] => false
  | x :: a', y :: b' =>
      if x <? y then true else if y <? x then false else str_leb a' b'
  end.

Fixpoint insert_sorted (x : str) (l : list str) : list str :=
  match l with
  | [] => [x]
  | y :: l' => if str_leb x y then x :: l else y :: insert_sorted x l'
  end.

(** [sorted(l)] on a list of identifiers: the ascending arrangement of
    [l], built here by insertion. *)
Definition sorted (l : list str) : list str :=
  fold_right insert_sorted [] l.

End Text.

Definition str_le (a b : str) : Prop := Text.str_leb a b = true.

(** *** [mark_coastal_provinces] *)

Definition with_coastal (p : Province.t) (flag : bool) : Province.t :=
  Province.mk (Province.id p) (Province.original_title p)
    (Province.original_id p) (Province.coordinates p) (Province.centroid p)
    flag.

(** [name.lower().strip()]. *)
Definition coastal_key (name : string) : list ascii :=
  Re.strip (Text.lower (list_ascii_of_string name)).

(** [any(coastal in title_lower for coastal in coastal_names_lower)]. *)
Definition title_matches (keys : list (list ascii)) (p : Province.t) : bool :=
  let title_lower := Text.lower (list_ascii_of_string (Province.original_title p)) in
  existsb (fun coastal => Text.contains title_lower coastal) keys.

Definition mark_coastal_provinces (provinces : list Province.t)
  (coastal_names : list string) : list Province.t :=
  let coastal_names_lower := map coastal_key coastal_names in
  map (fun province =>
         if title_matches coastal_names_lower province
         then with_coastal province true
         else province)
      provinces.

(** *** The loop of [extract_provinces_from_svg] *)

(** The attributes of a path element that the loop reads; [None] for an
    attribute that the element does not carry. *)
Record path_element : Type := mkPath {
  path_title : option string;
  path_id : option string;
  path_d : option string
}.

Record metadata : Type := mkMetadata {
  viewBox : string;
  original_province_count : Z
}.

Section Extraction.

Context {E : GeometryEngine}.

(** [for idx, path in enumerate(paths)], counting from [idx]:
    [title = path.get('title', f'Province_{idx+1}')],
    [province_id = path.get('id', f'p{idx}')], then the body modelled by
    [extract_province]. *)
Fixpoint extract_from (idx : nat) (paths : list path_element)
  (tolerance : float) : list Extracted.t :=
  match paths with
  | [] => []
  | path :: rest =>
      let title := match path_title path with
                   | Some t => t
                   | None => ("Province_" ++ Text.decimal (idx + 1))%string
                   end in
      let province_id := match path_id path with
                         | Some i => i
                         | None => ("p" ++ Text.decimal idx)%string
                         end in
      match extract_province title province_id (path_d path) tolerance with
      | Appended p => p :: extract_from (S idx) rest tolerance
      | _ => extract_from (S idx) rest tolerance
      end
  end.

(** [extract_provinces_from_svg] after the document is read: [view_box]
    is the string the function has settled on, [paths] the path elements
    it has found. *)
Definition extract_provinces (view_box : string) (paths : list path_element)
  (tolerance : float) : metadata * list Extracted.t :=
  let provinces := extract_from 0 paths tolerance in
  (mkMetadata view_box (len provinces), provinces).

End Extraction.

(** *** [create_template_json] *)

Module TemplateProvince.
Record t : Type := mk {
  id : str;
  title : string;
  coordinates : list ipoint;
  centroid : ipoint;
  isCoastal : bool;
  neighbors : list str
}.
End TemplateProvince.

Module Template.
Record t : Type := mk {
  id : string;
  name : string;
  provinceCount : Z;
  viewBox : string;
  provinces : list TemplateProvince.t
}.
End Template.

Section TemplateJson.

Context {E : GeometryEngine}.

(** [s.title()], a built-in that is not written out here. *)
Variable str_title : string -> string.

(** The two loops over [provinces]: the sorted neighbor list is attached
    to the province, then the province is copied into the template. *)
Definition template_province (neighbors : Dict.t (K := str) (V := list str))
  (province : Province.t) : TemplateProvince.t :=
  TemplateProvince.mk (Province.id province)
    (Province.original_title province) (Province.coordinates province)
    (Province.centroid province) (Province.isCoastal province)
    (Text.sorted (neighbors_of neighbors (Province.id province))).

Definition create_template_json (meta : metadata)
  (provinces : list Province.t) (output_name : string) : result Template.t :=
  neighbors <- detect_neighbors provinces ;;
  Ok (Template.mk
        ("template-" ++ output_name)%string
        (str_title output_name ++ " Map ("
         ++ Text.decimal (List.length provinces) ++ " Provinces)")%string
        (len provinces)
        (viewBox meta)
        (map (template_province neighbors) provinces)).

End TemplateJson.

(** *** [interactive_coastal_selection] *)

(** [s.split(',')]. *)
Fixpoint split_commas (s : list ascii) : list (list ascii) :=
  match s with
  | [] => [[]]
  | c :: rest =>
      if Ascii.eqb c ","%char then [] :: split_commas rest
      else match split_commas rest with
           | piece :: pieces => (c :: piece) :: pieces
           | [] => [[c]]
           end
  end.

(** [[\d,\s]]. *)
Definition is_selection_char (c : ascii) : bool :=
  Re.is_digit c || Ascii.eqb c ","%char || Re.is_space c.

(** What one line of input leads to: a returned list, or the message and
    another turn of the loop. *)
Inductive selection : Type :=
| Selected (names : list string)
| AskAgain.

Section Interactive.

(** [sys.get_int_max_str_digits()]: the longest digit string that [int]
    converts, 0 when there is no limit. *)
Variable int_max_str_digits : nat.

(** [int(s)] for a stripped string [s] of digits and white space, which is
    all that the pattern lets through: a [ValueError] for the empty string,
    for white space between digits and for a string over the limit. *)
Definition int_of_digits (s : list ascii) : result Z :=
  match s with
  | [] => Raise ValueError
  | _ :: _ =>
      if forallb Re.is_digit s
         && ((int_max_str_digits =? 0)%nat
             || (List.length s <=? int_max_str_digits)%nat)
      then Ok (Re.digits_value s)
      else Raise ValueError
  end.

(** [[int(x.strip()) - 1 for x in pieces]]. *)
Fixpoint indices_of (pieces : list (list ascii)) : result (list Z) :=
  match pieces with
  | [] => Ok []
  | x :: rest =>
      n <- int_of_digits (Re.strip x) ;;
      others <- indices_of rest ;;
      Ok (n - 1 :: others)
  end.

(** [[provinces[i]['original_title'] for i in indices
      if 0 <= i < len(provinces)]]. *)
Fixpoint titles_at (provinces : list Province.t) (indices : list Z)
  : list string :=
  match indices with
  | [] => []
  | i :: rest =>
      if (0 <=? i) && (i <? len provinces)
      then match nth_error provinces (Z.to_nat i) with
           | Some p => Province.original_title p :: titles_at provinces rest
           | None => titles_at provinces rest
           end
      else titles_at provinces rest
  end.

(** The body of the [while True] loop, from the line that [input] returns. *)
Definition read_selection (provinces : list Province.t) (line : string)
  : selection :=
  let user_input := Re.strip (list_ascii_of_string line) in
  match user_input with
  | [] => Selected []
  | _ :: _ =>
      if forallb is_selection_char user_input
      then match indices_of (split_commas user_input) with
           | Ok indices => Selected (titles_at provinces indices)
           | Raise _ => AskAgain
           end
      else Selected (map (fun name => string_of_list_ascii (Re.strip name))
                         (split_commas user_input))
  end.

(** [interactive_coastal_selection] on the lines that the user types;
    [None] when the input ends before a line is accepted ([input] then
    raises [EOFError]). *)
Fixpoint interactive_coastal_selection (provinces : list Province.t)
  (lines : list string) : option (list string) :=
  match lines with
  | [] => None
  | line :: rest =>
      match read_selection provinces line with
      | Selected names => Some names
      | AskAgain => interactive_coastal_selection provinces rest
      end
  end.

End Interactive.

(** ** Closed forms used by the properties *)

(** The numbers of a command taken two by two. *)
Fixpoint pairs (numbers : list float) : list point :=
  match numbers with
  | x :: y :: rest => (x, y) :: pairs rest
  | _ => []
  end.

(** The cursor after an absolute move or line to [p]. *)
Definition move_to (st : cursor) (p : point) : cursor :=
  mkCursor (coords st ++ [p]) (fst p) (snd p).

(** The cursor after a relative move or line by [d]. *)
Definition move_by (st : cursor) (d : point) : cursor :=
  let x := fadd (current_x st) (fst d) in
  let y := fadd (current_y st) (snd d) in
  mkCursor (coords st ++ [(x, y)]) x y.

(** What a command does, read off its pairs of numbers. *)
Definition draw_command (st : cursor) (c : ascii * list ascii) : cursor :=
  let ps := pairs (numbers_of (snd c)) in
  if Ascii.eqb (fst c) "M"%char || Ascii.eqb (fst c) "L"%char
  then fold_left move_to ps st
  else if Ascii.eqb (fst c) "m"%char || Ascii.eqb (fst c) "l"%char
       then fold_left move_by ps st
       else st.

(** The commands that contribute points. *)
Definition draws (c : ascii * list ascii) : bool :=
  existsb (Ascii.eqb (fst c)) ["M"; "m"; "L"; "l"]%char.

(** [a] is one of [l]. *)
Definition among (a : str) (l : list str) : bool :=
  existsb (fun y => if str_eq_dec a y then true else false) l.

Section Partners.

Context {E : GeometryEngine}.

(** The pair test succeeded and said yes. *)
Definition passes (poly1 poly2 : geometry) : bool :=
  match shares_border poly1 poly2 with
  | Ok true => true
  | _ => false
  end.

(** The pair test of [detect_neighbors] on two identifiers, the first one
    being the earlier key. *)
Definition adjacent (polygons : Dict.t (K := str) (V := geometry))
  (x y : str) : bool :=
  match Dict.get str_eq_dec polygons x, Dict.get str_eq_dec polygons y with
  | Some px, Some py =>
      match shares_border px py with
      | Ok true => true
      | _ => false
      end
  | _, _ => false
  end.

(** The neighbors that the pair loop over [ids] appends to the list of
    [a], in the order in which it appends them. *)
Fixpoint partners (polygons : Dict.t (K := str) (V := geometry))
  (ids : list str) (a : str) : list str :=
  match ids with
  | [] => []
  | id1 :: rest =>
      (if str_eq_dec a id1 then filter (adjacent polygons id1) rest
       else if existsb (fun y => if str_eq_dec a y then true else false) rest
               && adjacent polygons id1 a
            then [id1]
            else [])
      ++ partners polygons rest a
  end.

End Partners.

(** ** [simplify_coords] on every [float]

    A Python [float] is a binary64 number: besides the finite ones there are
    the two infinities and NaN.  [float(x)] gives an infinity for a digit
    string beyond the binary64 range, and [round] raises on an infinity and
    on NaN.  In this module a [number] is a rational, an infinity or NaN;
    the rounding error of the operations on finite numbers stays outside
    the model, as above.  [Binary64.simplify_coords] is [simplify_coords]
    on such numbers, the library's operations being the fields of
    [NumberEngine]. *)

Module Binary64.

Inductive number : Type :=
| Finite (q : Q)
| Infinity (negative : bool)
| NaN.

Definition npoint : Type := (number * number)%type.

(** A magnitude from [limit] on is rounded to an infinity: [limit] lies
    half a unit in the last place above the largest finite number,
    2^1024 - 2^971. *)
Definition limit : Q := inject_Z (2 ^ 1024 - 2 ^ 970).

Definition negative (q : Q) : bool := negb (Qle_bool 0 q).

(** The number that stands for a real value: the value itself within the
    range, an infinity beyond. *)
Definition of_rational (q : Q) : number :=
  if Qle_bool limit (Qabs q) then Infinity (negative q) else Finite (Qred q).

(** [float(x)] for a token [x] of the number pattern. *)
Definition float_of_token (tok : list ascii) : number :=
  of_rational (Re.float_of_token tok).

Definition is_finite (x : number) : bool :=
  match x with
  | Finite _ => true
  | _ => false
  end.

Definition is_finite_point (p : npoint) : bool :=
  is_finite (fst p) && is_finite (snd p).

Definition is_zero (x : number) : bool :=
  match x with
  | Finite q => Qeq_bool q 0
  | _ => false
  end.

Definition is_negative (x : number) : bool :=
  match x with
  | Finite q => negative q
  | Infinity s => s
  | NaN => false
  end.

(** [a * b] *)
Definition mul (a b : number) : number :=
  match a, b with
  | NaN, _ => NaN
  | _, NaN => NaN
  | Finite p, Finite q => of_rational (p * q)
  | _, _ =>
      if is_zero a || is_zero b then NaN
      else Infinity (xorb (is_negative a) (is_negative b))
  end.

(** [round(x)] with one argument: [OverflowError] on an infinity,
    [ValueError] on NaN. *)
Definition round (x : number) : result Z :=
  match x with
  | Finite q => Ok (Py.round q)
  | Infinity _ => Raise OverflowError
  | NaN => Raise ValueError
  end.

(** [[round(x), round(y)]] *)
Definition round_point (p : npoint) : result ipoint :=
  x <- round (fst p) ;;
  y <- round (snd p) ;;
  Ok (x, y).

(** [[[round(x), round(y)] for x, y in coords]] *)
Fixpoint round_points (coords : list npoint) : result (list ipoint) :=
  match coords with
  | [] => Ok []
  | p :: rest =>
      q <- round_point p ;;
      qs <- round_points rest ;;
      Ok (q :: qs)
  end.

(** The operations of shapely that [simplify_coords] calls, on numbers. *)
Class NumberEngine : Type := {
  geometry : Type;
  (** [Polygon(coords)] *)
  Polygon : list npoint -> result geometry;
  (** [g.simplify(tolerance, preserve_topology=True)] *)
  simplify : geometry -> number -> result geometry;
  (** [g.exterior.coords] *)
  exterior_coords : geometry -> result (list npoint)
}.

Section Simplifier.

Context {N : NumberEngine}.

(** The [try] block of [simplify_coords], up to the shell it converts. *)
Definition simplified_shell (coords : list npoint) (tolerance : number)
  : result (list npoint) :=
  poly <- Polygon coords ;;
  simplified <- simplify poly tolerance ;;
  ext <- exterior_coords simplified ;;
  simplified <- (if (List.length ext <? 6)%nat
                 then simplify poly (mul tolerance (Finite (1 # 2)))
                 else Ok simplified) ;;
  exterior_coords simplified.

(** The [try] block of [simplify_coords]: the rounding of the shell is
    inside it. *)
Definition simplify_attempt (coords : list npoint) (tolerance : number)
  : result (list ipoint) :=
  ext <- simplified_shell coords tolerance ;;
  round_points (removelast ext).

(** The rounding of the input, on the short path and in the [except]
    branch, is outside the [try] block: what it raises is raised by
    [simplify_coords]. *)
Definition simplify_coords (coords : list npoint) (tolerance : number)
  : result (list ipoint) :=
  if (List.length coords <? 4)%nat then round_points coords
  else match simplify_attempt coords tolerance with
       | Ok ring => Ok ring
       | Raise _ => round_points coords
       end.


End Simplifier.

(** A point of rationals as a point of numbers, and back. *)
Definition embed (p : point) : npoint := (Finite (fst p), Finite (snd p)).

Definition finite_point (p : npoint) : option point :=
  match p with
  | (Finite x, Finite y) => Some (x, y)
  | _ => None
  end.

Fixpoint finite_points (coords : list npoint) : option (list point) :=
  match coords with
  | [] => Some []
  | p :: rest =>
      match finite_point p, finite_points rest with
      | Some q, Some qs => Some (q :: qs)
      | _, _ => None
      end
  end.

(** An engine on rationals as an engine on numbers: it works on the finite
    numbers and refuses the others. *)
Definition widen (E : GeometryEngine) : NumberEngine := {|
  geometry := Geometry.geometry;
  Polygon coords :=
    match finite_points coords with
    | Some ps => Geometry.Polygon ps
    | None => Raise GeometryError
    end;
  simplify g tolerance :=
    match tolerance with
    | Finite t => Geometry.simplify g t
    | _ => Raise GeometryError
    end;
  exterior_coords g :=
    ext <- Geometry.exterior_coords g ;;
    Ok (map embed ext)
|}.

(** The integer point [q] lies within one half of the finite point [p] in
    each coordinate. *)
Definition within_half (p : npoint) (q : ipoint) : Prop :=
  match p with
  | (Finite x, Finite y) =>
      (inject_Z (fst q) - (1 # 2) <= x <= inject_Z (fst q) + (1 # 2))%Q
      /\ (inject_Z (snd q) - (1 # 2) <= y <= inject_Z (snd q) + (1 # 2))%Q
  | _ => False
  end.

End Binary64.

(** * Properties *)

(** ** Loops and indices *)

Lemma range2_empty (start stop : nat) :
  (stop <= start)%nat -> range2 start stop = [].
Proof.
  intros Hle. unfold range2.
  replace (stop - start + 1)%nat with 1%nat by lia.
  reflexivity.
Qed.

Lemma range2_step (start stop : nat) :
  (start < stop)%nat ->
  range2 start stop = start :: range2 (start + 2) stop.
Proof.
  intros Hlt. unfold range2.
  assert (Hcount : ((stop - start + 1) / 2
                    = S ((stop - (start + 2) + 1) / 2))%nat).
  { destruct (Nat.le_gt_cases stop (start + 1)) as [Hs | Hs].
    - replace (stop - start + 1)%nat with 2%nat by lia.
      replace (stop - (start + 2) + 1)%nat with 1%nat by lia.
      reflexivity.
    - replace (stop - start + 1)%nat
        with (stop - (start + 2) + 1 + 1 * 2)%nat by lia.
      rewrite Nat.div_add by lia. lia. }
  rewrite Hcount. cbn [seq map].
  f_equal; [lia |].
  rewrite <- seq_shift, map_map.
  apply map_ext. intros k. lia.
Qed.

Lemma index_in_range {A : Type} (l : list A) (i : nat) :
  (i < List.length l)%nat -> exists a, index l i = Ok a.
Proof.
  intros Hi. unfold index.
  destruct (nth_error l i) as [a |] eqn:Hnth.
  - now exists a.
  - apply nth_error_None in Hnth. lia.
Qed.

Lemma index_out_of_range {A : Type} (l : list A) (i : nat) :
  (List.length l <= i)%nat -> index l i = Raise IndexError.
Proof.
  intros Hi. unfold index.
  now rewrite (proj2 (nth_error_None l i) Hi).
Qed.

Section PairLoop.

(** A loop body that reads [numbers[i]] and [numbers[i+1]] and nothing
    else that can fail. *)
Variables (A S : Type) (numbers : list A) (step : nat -> S -> result S).

Hypothesis step_in_range :
  forall i st, (i + 1 < List.length numbers)%nat -> exists st', step i st = Ok st'.

Hypothesis step_out_of_range :
  forall i st, (List.length numbers <= i + 1)%nat -> step i st = Raise IndexError.

Lemma pair_loop_bounded (k : nat) :
  forall start st,
    (List.length numbers - start <= k)%nat ->
    (start <= List.length numbers)%nat ->
    if Nat.even (List.length numbers - start)
    then exists st', for_each (range2 start (List.length numbers)) step st = Ok st'
    else for_each (range2 start (List.length numbers)) step st = Raise IndexError.
Proof.
  induction k as [k IH] using lt_wf_ind.
  intros start st Hk Hstart.
  destruct (Nat.eq_dec start (List.length numbers)) as [-> | Hne].
  - rewrite Nat.sub_diag, range2_empty by lia. cbn. now exists st.
  - rewrite range2_step by lia. cbn [for_each].
    destruct (Nat.eq_dec (start + 1) (List.length numbers)) as [Hlast | Hmore].
    + replace (List.length numbers - start)%nat with 1%nat by lia.
      cbn [Nat.even]. rewrite step_out_of_range by lia. reflexivity.
    + destruct (step_in_range start st) as [st' Hst']; [lia |].
      rewrite Hst'. cbn [bind].
      replace (List.length numbers - start)%nat
        with (Datatypes.S (Datatypes.S (List.length numbers - (start + 2))))
        by lia.
      cbn [Nat.even].
      apply (IH (k - 2)%nat); lia.
Qed.

Lemma pair_loop (start : nat) (st : S) :
  (start <= List.length numbers)%nat ->
  if Nat.even (List.length numbers - start)
  then exists st', for_each (range2 start (List.length numbers)) step st = Ok st'
  else for_each (range2 start (List.length numbers)) step st = Raise IndexError.
Proof.
  intros Hstart.
  apply (pair_loop_bounded (List.length numbers - start)); lia.
Qed.

End PairLoop.

Lemma for_each_all {A S : Type} (ok : A -> bool) (body : A -> S -> result S)
  (l : list A) :
  (forall a st, ok a = true -> exists st', body a st = Ok st') ->
  forallb ok l = true ->
  forall st, exists st', for_each l body st = Ok st'.
Proof.
  intros Hbody. induction l as [| a l IH]; intros Hall st; cbn.
  - now exists st.
  - cbn in Hall. apply andb_true_iff in Hall as [Ha Hl].
    destruct (Hbody a st Ha) as [st' ->]. cbn. now apply IH.
Qed.

Lemma for_each_first_failure {A S : Type} (ok : A -> bool)
  (body : A -> S -> result S) (e : exn) (l : list A) :
  (forall a st, ok a = true -> exists st', body a st = Ok st') ->
  (forall a st, ok a = false -> body a st = Raise e) ->
  forallb ok l = false ->
  forall st, for_each l body st = Raise e.
Proof.
  intros Hgood Hbad. induction l as [| a l IH]; intros Hall st; cbn.
  - discriminate.
  - cbn in Hall. destruct (ok a) eqn:Ha.
    + destruct (Hgood a st Ha) as [st' ->]. cbn. now apply IH.
    + now rewrite Hbad.
Qed.

(** ** The searches of [re.findall] end within their fuel *)

Lemma length_drop_while (p : ascii -> bool) (s : list ascii) :
  (List.length (Re.drop_while p s) <= List.length s)%nat.
Proof.
  induction s as [| c s IH]; cbn; [lia |].
  destruct (p c); cbn; lia.
Qed.

Lemma match_command_consumes (s : list ascii) groups after :
  Re.match_command s = Some (groups, after) ->
  (List.length after < List.length s)%nat.
Proof.
  unfold Re.match_command. destruct s as [| c rest]; [discriminate |].
  destruct (Re.is_command c); [| discriminate].
  intros H. injection H as _ <-. cbn.
  pose proof (length_drop_while Re.is_arg_char
                (Re.drop_while Re.is_space rest)).
  pose proof (length_drop_while Re.is_space rest). lia.
Qed.

Lemma findall_commands_fuel (fuel1 : nat) :
  forall fuel2 s,
    (List.length s <= fuel1)%nat -> (List.length s <= fuel2)%nat ->
    Re.findall_commands_from fuel1 s = Re.findall_commands_from fuel2 s.
Proof.
  induction fuel1 as [| fuel1 IH]; intros fuel2 s H1 H2.
  - destruct s; [| cbn in H1; lia]. now destruct fuel2.
  - destruct fuel2 as [| fuel2]; [destruct s; [reflexivity | cbn in H2; lia] |].
    destruct s as [| c rest]; [reflexivity |].
    cbn [Re.findall_commands_from].
    destruct (Re.match_command (c :: rest)) as [[groups after] |] eqn:Hmatch.
    + apply match_command_consumes in Hmatch. cbn in H1, H2, Hmatch.
      f_equal. apply IH; lia.
    + cbn in H1, H2. apply IH; lia.
Qed.

Lemma match_digits_consumes (s : list ascii) tok after :
  Re.match_digits s = Some (tok, after) ->
  (List.length after < List.length s)%nat.
Proof.
  unfold Re.match_digits. destruct s as [| d rest]; [discriminate |].
  destruct (Re.is_digit d) eqn:Hd; [| discriminate].
  cbn [Re.drop_while]. rewrite Hd.
  pose proof (length_drop_while Re.is_digit rest) as Hrest.
  destruct (Re.drop_while Re.is_digit rest) as [| dot rest'] eqn:Hdrop.
  - intros H. injection H as _ <-. cbn. lia.
  - pose proof (length_drop_while Re.is_digit rest') as Hrest'.
    cbn in Hrest.
    destruct (Ascii.eqb dot "."); intros H; injection H as _ <-; cbn; lia.
Qed.

Lemma match_number_consumes (s : list ascii) tok after :
  Re.match_number s = Some (tok, after) ->
  (List.length after < List.length s)%nat.
Proof.
  unfold Re.match_number. destruct s as [| c rest]; [discriminate |].
  destruct (Ascii.eqb c "-").
  - destruct (Re.match_digits rest) as [[tok' after'] |] eqn:Hdigits;
      [| discriminate].
    intros H. injection H as _ <-.
    apply match_digits_consumes in Hdigits. cbn. lia.
  - apply match_digits_consumes.
Qed.

Lemma findall_numbers_fuel (fuel1 : nat) :
  forall fuel2 s,
    (List.length s <= fuel1)%nat -> (List.length s <= fuel2)%nat ->
    Re.findall_numbers_from fuel1 s = Re.findall_numbers_from fuel2 s.
Proof.
  induction fuel1 as [| fuel1 IH]; intros fuel2 s H1 H2.
  - destruct s; [| cbn in H1; lia]. now destruct fuel2.
  - destruct fuel2 as [| fuel2]; [destruct s; [reflexivity | cbn in H2; lia] |].
    destruct s as [| c rest]; [reflexivity |].
    cbn [Re.findall_numbers_from].
    destruct (Re.match_number (c :: rest)) as [[tok after] |] eqn:Hmatch.
    + apply match_number_consumes in Hmatch. cbn in H1, H2, Hmatch.
      f_equal. apply IH; lia.
    + cbn in H1, H2. apply IH; lia.
Qed.

(** ** PathParser *)

Lemma step_absolute_in_range (numbers : list float) (i : nat) (st : cursor) :
  (i + 1 < List.length numbers)%nat ->
  exists st', step_absolute numbers i st = Ok st'.
Proof.
  intros Hi. unfold step_absolute.
  destruct (index_in_range numbers i) as [x ->]; [lia |].
  destruct (index_in_range numbers (i + 1)) as [y ->]; [lia |].
  cbn. eauto.
Qed.

Lemma step_absolute_out_of_range (numbers : list float) (i : nat) (st : cursor) :
  (List.length numbers <= i + 1)%nat ->
  step_absolute numbers i st = Raise IndexError.
Proof.
  intros Hi. unfold step_absolute.
  rewrite (index_out_of_range numbers (i + 1)) by lia.
  unfold index. now destruct (nth_error numbers i).
Qed.

Lemma step_relative_in_range (numbers : list float) (i : nat) (st : cursor) :
  (i + 1 < List.length numbers)%nat ->
  exists st', step_relative numbers i st = Ok st'.
Proof.
  intros Hi. unfold step_relative.
  destruct (index_in_range numbers i) as [x ->]; [lia |].
  destruct (index_in_range numbers (i + 1)) as [y ->]; [lia |].
  cbn. eauto.
Qed.

Lemma step_relative_out_of_range (numbers : list float) (i : nat) (st : cursor) :
  (List.length numbers <= i + 1)%nat ->
  step_relative numbers i st = Raise IndexError.
Proof.
  intros Hi. unfold step_relative.
  rewrite (index_out_of_range numbers (i + 1)) by lia.
  unfold index. now destruct (nth_error numbers i).
Qed.

Lemma move_loop (numbers : list float) (step : nat -> cursor -> result cursor)
  (st : cursor) :
  (forall i s, (i + 1 < List.length numbers)%nat -> exists s', step i s = Ok s') ->
  (forall i s, (List.length numbers <= i + 1)%nat -> step i s = Raise IndexError) ->
  if ((2 <=? List.length numbers)%nat && Nat.even (List.length numbers))%bool
  then exists st', (st1 <- step 0%nat st ;;
                    for_each (range2 2 (List.length numbers)) step st1) = Ok st'
  else (st1 <- step 0%nat st ;;
        for_each (range2 2 (List.length numbers)) step st1) = Raise IndexError.
Proof.
  intros Hin Hout.
  destruct (2 <=? List.length numbers)%nat eqn:Hlen; cbn [andb].
  - apply Nat.leb_le in Hlen.
    destruct (Hin 0%nat st) as [st1 ->]; [lia |]. cbn [bind].
    pose proof (pair_loop _ _ numbers step Hin Hout 2 st1 Hlen) as Hloop.
    assert (Heven : Nat.even (List.length numbers)
                    = Nat.even (List.length numbers - 2)).
    { destruct (List.length numbers) as [| [| n]]; [lia | lia |].
      cbn [Nat.even]. f_equal. lia. }
    rewrite Heven. exact Hloop.
  - apply Nat.leb_gt in Hlen. rewrite Hout by lia. reflexivity.
Qed.

Lemma line_loop (numbers : list float) (step : nat -> cursor -> result cursor)
  (st : cursor) :
  (forall i s, (i + 1 < List.length numbers)%nat -> exists s', step i s = Ok s') ->
  (forall i s, (List.length numbers <= i + 1)%nat -> step i s = Raise IndexError) ->
  if Nat.even (List.length numbers)
  then exists st', for_each (range2 0 (List.length numbers)) step st = Ok st'
  else for_each (range2 0 (List.length numbers)) step st = Raise IndexError.
Proof.
  intros Hin Hout.
  pose proof (pair_loop _ _ numbers step Hin Hout 0 st (Nat.le_0_l _)) as Hloop.
  now rewrite Nat.sub_0_r in Hloop.
Qed.

Lemma run_command_arity (c : ascii * list ascii) (st : cursor) :
  if arity_ok c
  then exists st', run_command (fst c) (snd c) st = Ok st'
  else run_command (fst c) (snd c) st = Raise IndexError.
Proof.
  destruct c as [cmd args]. unfold arity_ok, run_command. cbn [fst snd].
  destruct args as [| ch args];
    [destruct (Ascii.eqb (upper cmd) "Z"); now exists st |].
  set (numbers := numbers_of (ch :: args)).
  destruct (Ascii.eqb cmd "M") eqn:HM; cbn [orb].
  { apply move_loop; intros.
    - now apply step_absolute_in_range.
    - now apply step_absolute_out_of_range. }
  destruct (Ascii.eqb cmd "m") eqn:Hm; cbn [orb].
  { apply move_loop; intros.
    - now apply step_relative_in_range.
    - now apply step_relative_out_of_range. }
  destruct (Ascii.eqb cmd "L") eqn:HL; cbn [orb].
  { apply line_loop; intros.
    - now apply step_absolute_in_range.
    - now apply step_absolute_out_of_range. }
  destruct (Ascii.eqb cmd "l") eqn:Hl; cbn [orb].
  { apply line_loop; intros.
    - now apply step_relative_in_range.
    - now apply step_relative_out_of_range. }
  now exists st.
Qed.

Lemma parse_returns (path_data : string) :
  forallb arity_ok (commands_of path_data) = true ->
  exists coords, parse_svg_path_to_coords path_data = Ok coords.
Proof.
  intros Hall. unfold parse_svg_path_to_coords.
  destruct (for_each_all arity_ok
              (fun c st => run_command (fst c) (snd c) st)
              (commands_of path_data)) with (st := mkCursor [] 0%Q 0%Q)
    as [st' ->]; [| exact Hall | cbn; eauto].
  intros c st Hc. pose proof (run_command_arity c st) as Hrun.
  now rewrite Hc in Hrun.
Qed.

Lemma parse_raises (path_data : string) :
  forallb arity_ok (commands_of path_data) = false ->
  parse_svg_path_to_coords path_data = Raise IndexError.
Proof.
  intros Hall. unfold parse_svg_path_to_coords.
  rewrite (for_each_first_failure arity_ok
             (fun c st => run_command (fst c) (snd c) st) IndexError);
    [reflexivity | | | exact Hall].
  - intros c st Hc. pose proof (run_command_arity c st) as Hrun.
    now rewrite Hc in Hrun.
  - intros c st Hc. pose proof (run_command_arity c st) as Hrun.
    now rewrite Hc in Hrun.
Qed.

Section ParserClaims.

Context {E : GeometryEngine}.

(** C2, as the specification words it, fails: the parser raises on a move
    command that carries a single number. *)
Lemma parse_single_number_raises :
  parse_svg_path_to_coords "M 5" = Raise IndexError.
Proof. vm_compute. reflexivity. Qed.

(** C2 (amended).  The parser returns a point list, raising nothing, exactly
    on the path strings whose commands all carry enough numbers for the
    pairs their loops read ([arity_ok]); on every other string it raises
    [IndexError], which the caller catches, skipping the province.  A
    returned list of fewer than 3 points is no parser error: the caller
    skips the province for it. *)
Theorem parse_total_on_paired_numbers (path_data : string) :
  (forallb arity_ok (commands_of path_data) = true ->
   exists coords,
     parse_svg_path_to_coords path_data = Ok coords
     /\ forall title province_id tolerance,
          path_data <> EmptyString ->
          (List.length coords < 3)%nat ->
          extract_province title province_id (Some path_data) tolerance
          = SkippedTooFewCoordinates)
  /\ (forallb arity_ok (commands_of path_data) = false ->
      parse_svg_path_to_coords path_data = Raise IndexError
      /\ forall title province_id tolerance,
           extract_province title province_id (Some path_data) tolerance
           = SkippedError IndexError).
Proof.
  split; intros Hall.
  - destruct (parse_returns path_data Hall) as [coords Hparse].
    exists coords. split; [exact Hparse |].
    intros title province_id tolerance Hne Hshort.
    unfold extract_province.
    destruct path_data as [| c rest]; [congruence |].
    rewrite Hparse.
    apply Nat.ltb_lt in Hshort. now rewrite Hshort.
  - pose proof (parse_raises path_data Hall) as Hparse.
    split; [exact Hparse |].
    intros title province_id tolerance. unfold extract_province.
    destruct path_data as [| c rest]; [discriminate Hall |].
    now rewrite Hparse.
Qed.

End ParserClaims.

(** C9.  The two example paths of the specification parse to the rings it
    gives; the close command of the first contributes no point. *)
Theorem parse_specified_examples :
  parse_svg_path_to_coords "M 0 0 L 10 0 L 10 10 L 0 10 Z"
  = Ok [(0, 0); (10, 0); (10, 10); (0, 10)]%Q
  /\ parse_svg_path_to_coords "m 5 5 l 5 0 l 0 5"
     = Ok [(5, 5); (10, 5); (10, 10)]%Q.
Proof. split; vm_compute; reflexivity. Qed.

Lemma parse_total_on_paired_numbers_witness :
  forallb arity_ok (commands_of "M 0 0 L 10 0") = true
  /\ exists coords,
       parse_svg_path_to_coords "M 0 0 L 10 0" = Ok coords
       /\ forall title province_id tolerance,
            "M 0 0 L 10 0"%string <> EmptyString ->
            (List.length coords < 3)%nat ->
            extract_province (E := Mini.engine Mini.keep)
              title province_id (Some "M 0 0 L 10 0"%string) tolerance
            = SkippedTooFewCoordinates.
Proof.
  split.
  - vm_compute. reflexivity.
  - apply (proj1 (parse_total_on_paired_numbers
                    (E := Mini.engine Mini.keep) "M 0 0 L 10 0")).
    vm_compute. reflexivity.
Defined.

(** ** CentroidCalculator *)

Section CentroidClaims.

Context {E : GeometryEngine}.

(** C7.  On a non-empty coordinate list [calculate_centroid] returns an
    integer-rounded point and raises nothing: the rounded centroid of the
    polygon when the library computes one, the rounded unweighted mean of
    the vertices when it does not. *)
Theorem calculate_centroid_total (coords : list ipoint) :
  coords <> [] ->
  calculate_centroid coords
  = Ok (match polygon_centroid coords with
        | Ok c => round_point c
        | Raise _ => round_point (vertex_mean coords)
        end).
Proof.
  intros Hne. unfold calculate_centroid.
  destruct (polygon_centroid coords) as [c | e]; cbn [bind]; [reflexivity |].
  unfold true_div.
  assert (Hlen : (len coords =? 0) = false).
  { apply Z.eqb_neq. unfold len. destruct coords; [congruence | cbn; lia]. }
  rewrite Hlen. reflexivity.
Qed.

End CentroidClaims.

Lemma calculate_centroid_total_witness :
  [(0, 0); (1, 0); (2, 0)] <> ([] : list ipoint)
  /\ calculate_centroid (E := Mini.engine Mini.keep) [(0, 0); (1, 0); (2, 0)]
     = Ok (1, 0).
Proof.
  split.
  - discriminate.
  - rewrite (calculate_centroid_total (E := Mini.engine Mini.keep)
               [(0, 0); (1, 0); (2, 0)]); [| discriminate].
    vm_compute. reflexivity.
Defined.

(** ** Identifier assignment *)

Lemma assign_ids_from_spec (provinces : list Extracted.t) :
  forall idx,
    Z.of_nat idx + len provinces <= 1114047 ->
    exists ps,
      assign_ids_from idx provinces = Ok ps
      /\ List.length ps = List.length provinces
      /\ forall i p, nth_error ps i = Some p ->
                     Province.id p = [65 + Z.of_nat (idx + i)].
Proof.
  unfold len.
  induction provinces as [| p rest IH]; intros idx Hbound.
  - exists []. cbn. repeat split. intros [| i] q Hq; discriminate.
  - cbn [assign_ids_from]. cbn [List.length] in Hbound.
    unfold chr.
    assert (Hrange : ((0 <=? 65 + Z.of_nat idx)
                      && (65 + Z.of_nat idx <=? 1114111))%bool = true).
    { apply andb_true_iff. split; apply Z.leb_le; lia. }
    rewrite Hrange. cbn [bind].
    destruct (IH (S idx)) as (ps & -> & Hlen & Hids); [lia |].
    cbn [bind]. eexists. split; [reflexivity |]. split.
    + cbn. now rewrite Hlen.
    + intros [| i] q Hq; cbn in Hq.
      * injection Hq as <-. cbn. now rewrite Nat.add_0_r.
      * rewrite (Hids i q Hq). do 2 f_equal. lia.
Qed.

Lemma assign_ids_from_overflow (provinces : list Extracted.t) :
  forall idx,
    Z.of_nat idx <= 1114047 ->
    1114047 < Z.of_nat idx + len provinces ->
    assign_ids_from idx provinces = Raise ValueError.
Proof.
  unfold len.
  induction provinces as [| p rest IH]; intros idx Hidx Hbound.
  - cbn in Hbound. lia.
  - cbn [assign_ids_from]. cbn [List.length] in Hbound. unfold chr.
    destruct (Z.eq_dec (Z.of_nat idx) 1114047) as [Hlast | Hbelow].
    + assert (Hrange : ((0 <=? 65 + Z.of_nat idx)
                        && (65 + Z.of_nat idx <=? 1114111))%bool = false).
      { apply andb_false_iff. right. apply Z.leb_gt. lia. }
      now rewrite Hrange.
    + assert (Hrange : ((0 <=? 65 + Z.of_nat idx)
                        && (65 + Z.of_nat idx <=? 1114111))%bool = true).
      { apply andb_true_iff. split; apply Z.leb_le; lia. }
      rewrite Hrange. cbn [bind].
      rewrite (IH (S idx)) by lia. reflexivity.
Qed.

(** C10, as it is worded, fails: the 33rd province gets the letter [a]. *)
Lemma thirty_third_identifier_is_a_letter :
  exists ps p,
    assign_province_ids (repeat (Extracted.mk "" "" [] (0, 0) false) 33) = Ok ps
    /\ nth_error ps 32 = Some p
    /\ Province.id p = [97]
    /\ non_alphabetic_ascii (Province.id p) = false.
Proof.
  eexists. eexists. split; [vm_compute; reflexivity |].
  split; [reflexivity |]. split; reflexivity.
Qed.

(** C10 (amended).  While the code 65 + i stays in the range of [chr], that
    is for up to 1,114,047 provinces, identifier assignment returns, and
    gives the province at position i (0-based) the single character with
    code 65 + i.  The identifiers are pairwise distinct.  They are uppercase
    letters exactly for the first 26 provinces; the 27th to the 32nd
    province get a non-alphabetic ASCII character, and the 33rd to the 58th
    a lowercase letter. *)
Theorem assign_province_ids_codes (provinces : list Extracted.t) :
  len provinces <= 1114047 ->
  exists ps,
    assign_province_ids provinces = Ok ps
    /\ List.length ps = List.length provinces
    /\ (forall i p,
          nth_error ps i = Some p ->
          Province.id p = [65 + Z.of_nat i]
          /\ (uppercase_letter (Province.id p) = true <-> (i < 26)%nat)
          /\ ((26 <= i < 32)%nat -> non_alphabetic_ascii (Province.id p) = true)
          /\ (is_lower_letter (65 + Z.of_nat i) = true <-> (32 <= i < 58)%nat))
    /\ (forall i j p q,
          nth_error ps i = Some p -> nth_error ps j = Some q ->
          Province.id p = Province.id q -> i = j).
Proof.
  intros Hbound.
  destruct (assign_ids_from_spec provinces 0) as (ps & Hps & Hlen & Hids);
    [cbn; lia |].
  exists ps. split; [exact Hps |]. split; [exact Hlen |]. split.
  - intros i p Hp. rewrite (Hids i p Hp). cbn [Nat.add].
    unfold uppercase_letter, non_alphabetic_ascii, is_upper_letter,
      is_lower_letter, is_ascii.
    split; [reflexivity |]. split; [| split].
    + rewrite andb_true_iff, !Z.leb_le. lia.
    + intros Hi.
      rewrite andb_true_iff, negb_true_iff, orb_false_iff, !andb_false_iff,
        andb_true_iff, !Z.leb_le, !Z.leb_gt.
      lia.
    + rewrite andb_true_iff, !Z.leb_le. lia.
  - intros i j p q Hp Hq Heq.
    rewrite (Hids i p Hp), (Hids j q Hq) in Heq.
    assert (Hcode : 65 + Z.of_nat (0 + i) = 65 + Z.of_nat (0 + j))
      by congruence.
    lia.
Qed.

Lemma assign_province_ids_codes_witness :
  len (repeat (Extracted.mk "" "" [] (0, 0) false) 3) <= 1114047
  /\ exists ps,
       assign_province_ids (repeat (Extracted.mk "" "" [] (0, 0) false) 3) = Ok ps
       /\ List.length ps = 3%nat.
Proof.
  split.
  - vm_compute. discriminate.
  - destruct (assign_province_ids_codes
                (repeat (Extracted.mk "" "" [] (0, 0) false) 3))
      as (ps & Hps & Hlen & _).
    + vm_compute. discriminate.
    + exists ps. split; [exact Hps | exact Hlen].
Defined.

(** Beyond that count [chr] raises. *)
Lemma assign_province_ids_out_of_range (provinces : list Extracted.t) :
  1114047 < len provinces ->
  assign_province_ids provinces = Raise ValueError.
Proof.
  intros Hbound. apply assign_ids_from_overflow; cbn; lia.
Qed.

(** ** RingSimplifier *)

Lemma length_removelast {A : Type} (l : list A) :
  List.length (removelast l) = pred (List.length l).
Proof.
  induction l as [| a [| b l] IH]; cbn in *; try reflexivity.
  now rewrite IH.
Qed.

Lemma in_removelast {A : Type} (l : list A) (x : A) :
  In x (removelast l) -> In x l.
Proof.
  induction l as [| a [| b l] IH]; cbn [removelast In] in *; try tauto.
Qed.


Section SimplifierClaims.

Context {E : GeometryEngine}.

Lemma simplify_coords_short (coords : list point) (tolerance : float) :
  (List.length coords < 4)%nat ->
  simplify_coords coords tolerance = map round_point coords.
Proof.
  intros Hlen. unfold simplify_coords.
  apply Nat.ltb_lt in Hlen. now rewrite Hlen.
Qed.

Lemma simplify_coords_shell (coords : list point) (tolerance : float)
  (ext : list point) :
  (4 <= List.length coords)%nat ->
  simplified_shell coords tolerance = Ok ext ->
  simplify_coords coords tolerance = map round_point (removelast ext).
Proof.
  intros Hlen Hshell. unfold simplify_coords, simplify_attempt.
  apply Nat.ltb_ge in Hlen. now rewrite Hlen, Hshell.
Qed.

Lemma simplify_coords_fallback (coords : list point) (tolerance : float)
  (e : exn) :
  simplified_shell coords tolerance = Raise e ->
  simplify_coords coords tolerance = map round_point coords.
Proof.
  intros Hshell. unfold simplify_coords, simplify_attempt.
  rewrite Hshell. cbn [bind]. now destruct (List.length coords <? 4)%nat.
Qed.



End SimplifierClaims.





(** ** RingSimplifier, under a contract of the library's simplifier *)

Section ContractClaims.

Context {E : GeometryEngine} {contract : SimplifierContract E}.

(** The shell that the [try] block converts comes from one call of
    [simplify] on the polygon of the input. *)
Lemma simplified_shell_origin (coords : list point) (tolerance : float)
  (ext : list point) :
  simplified_shell coords tolerance = Ok ext ->
  exists poly t simplified,
    Polygon coords = Ok poly /\ simplify poly t = Ok simplified
    /\ exterior_coords simplified = Ok ext.
Proof.
  unfold simplified_shell. intros Hshell.
  destruct (Polygon coords) as [poly | e] eqn:Hpoly; [| discriminate].
  cbn [bind] in Hshell.
  destruct (simplify poly tolerance) as [s | e] eqn:Hsimp; [| discriminate].
  cbn [bind] in Hshell.
  destruct (exterior_coords s) as [ext0 | e] eqn:Hext0; [| discriminate].
  cbn [bind] in Hshell.
  destruct (List.length ext0 <? 6)%nat.
  - destruct (simplify poly (fmul tolerance (1 # 2))) as [s' | e] eqn:Hretry;
      [| discriminate].
    cbn [bind] in Hshell.
    exists poly, (fmul tolerance (1 # 2)), s'. auto.
  - cbn [bind] in Hshell. exists poly, tolerance, s. auto.
Qed.

Lemma simplify_coords_floor (coords : list point) (tolerance : float) :
  (3 <= List.length coords)%nat ->
  (3 <= List.length (simplify_coords coords tolerance))%nat.
Proof.
  intros Hring.
  destruct (Nat.lt_ge_cases (List.length coords) 4) as [Hshort | Hlong].
  - rewrite simplify_coords_short by exact Hshort. now rewrite length_map.
  - destruct (simplified_shell coords tolerance) as [ext | e] eqn:Hshell.
    + rewrite (simplify_coords_shell _ _ _ Hlong Hshell).
      destruct (simplified_shell_origin _ _ _ Hshell)
        as (poly & t & s & Hpoly & Hsimp & Hext).
      pose proof (simplified_floor coords t poly s ext Hpoly Hsimp Hext Hlong).
      rewrite length_map, length_removelast. lia.
    + rewrite (simplify_coords_fallback _ _ e Hshell). now rewrite length_map.
Qed.

End ContractClaims.

(** The engine that leaves shells as they are meets the contract. *)

Lemma close_length (coords : list point) :
  (List.length coords <= List.length (Mini.close coords)
   <= S (List.length coords))%nat.
Proof.
  unfold Mini.close. destruct coords as [| first rest]; [cbn; lia |].
  destruct (Plane.point_eqb _ _); [lia |].
  rewrite length_app. cbn. lia.
Qed.

#[export] Instance keep_contract : SimplifierContract (Mini.engine Mini.keep).
Proof.
  constructor. intros coords t p s e Hp Hs He Hlen.
  assert (Hshell : e = Mini.close coords).
  { cbn [Polygon Mini.engine] in Hp.
    destruct (List.length coords <? 3)%nat; [discriminate |].
    injection Hp as <-. cbn in Hs. injection Hs as <-.
    cbn in He. now injection He as <-. }
  rewrite Hshell. pose proof (close_length coords). lia.
Qed.

(** ** RingSimplifier on every float *)



Lemma round_points_embed (coords : list point) :
  Binary64.round_points (map Binary64.embed coords)
  = Ok (map round_point coords).
Proof.
  induction coords as [| p coords IH]; [reflexivity |].
  cbn [map Binary64.round_points]. rewrite IH. reflexivity.
Qed.

Lemma finite_points_embed (coords : list point) :
  Binary64.finite_points (map Binary64.embed coords) = Some coords.
Proof.
  induction coords as [| [x y] coords IH]; [reflexivity |].
  cbn [map Binary64.finite_points]. rewrite IH. reflexivity.
Qed.

Lemma removelast_map {A B : Type} (f : A -> B) (l : list A) :
  removelast (map f l) = map f (removelast l).
Proof.
  induction l as [| a [| b l] IH]; cbn [map removelast] in *;
    [reflexivity | reflexivity |].
  now rewrite IH.
Qed.

Section EveryFloat.

Context {N : Binary64.NumberEngine}.

Lemma simplify_coords_passes_through (coords : list Binary64.npoint)
  (tolerance : Binary64.number) :
  (List.length coords < 4)%nat
  \/ (exists e, Binary64.simplify_attempt coords tolerance = Raise e) ->
  Binary64.simplify_coords coords tolerance = Binary64.round_points coords.
Proof.
  intros [Hshort | [e Hraise]]; unfold Binary64.simplify_coords.
  - apply Nat.ltb_lt in Hshort. now rewrite Hshort.
  - rewrite Hraise. now destruct (List.length coords <? 4)%nat.
Qed.



End EveryFloat.

(** On finite numbers, at a tolerance whose half is within the range,
    [Binary64.simplify_coords] with the engine that an engine on rationals
    gives is [simplify_coords]. *)
Lemma simplified_shell_agrees {E : GeometryEngine} (coords : list point)
  (tolerance : float) :
  Qle_bool Binary64.limit (Qabs (tolerance * (1 # 2))) = false ->
  Binary64.simplified_shell (N := Binary64.widen E)
    (map Binary64.embed coords) (Binary64.Finite tolerance)
  = (ext <- simplified_shell coords tolerance ;; Ok (map Binary64.embed ext)).
Proof.
  intros Hhalf. unfold Binary64.simplified_shell, simplified_shell.
  cbn [Binary64.Polygon Binary64.simplify Binary64.exterior_coords
       Binary64.widen Binary64.mul].
  unfold Binary64.of_rational. rewrite finite_points_embed, Hhalf.
  change (Qred (tolerance * (1 # 2))) with (fmul tolerance (1 # 2)).
  destruct (Polygon coords) as [poly | e]; [| reflexivity]. cbn [bind].
  destruct (simplify poly tolerance) as [s | e]; [| reflexivity]. cbn [bind].
  destruct (exterior_coords s) as [ext | e]; [| reflexivity]. cbn [bind].
  rewrite length_map.
  destruct (List.length ext <? 6)%nat; cbn [bind]; [| reflexivity].
  now destruct (simplify poly (fmul tolerance (1 # 2))).
Qed.

Lemma simplify_coords_agrees {E : GeometryEngine} (coords : list point)
  (tolerance : float) :
  Qle_bool Binary64.limit (Qabs (tolerance * (1 # 2))) = false ->
  Binary64.simplify_coords (N := Binary64.widen E)
    (map Binary64.embed coords) (Binary64.Finite tolerance)
  = Ok (simplify_coords coords tolerance).
Proof.
  intros Hhalf. unfold Binary64.simplify_coords, simplify_coords.
  rewrite length_map, round_points_embed.
  destruct (List.length coords <? 4)%nat; [reflexivity |].
  unfold Binary64.simplify_attempt, simplify_attempt.
  rewrite (simplified_shell_agrees coords tolerance Hhalf).
  destruct (simplified_shell coords tolerance) as [ext | e]; [| reflexivity].
  cbn [bind]. rewrite removelast_map, round_points_embed. reflexivity.
Qed.



(** ** Dictionaries *)

Section DictFacts.

Context {K V : Type} (K_eq_dec : forall x y : K, {x = y} + {x <> y}).

Implicit Types (d : Dict.t (K := K) (V := V)) (k : K) (v : V).

Lemma get_set_same d k v : Dict.get K_eq_dec (Dict.set K_eq_dec d k v) k = Some v.
Proof.
  induction d as [| [k' v'] d IH]; cbn.
  - now destruct (K_eq_dec k k).
  - destruct (K_eq_dec k k') as [Heq | Hne]; cbn.
    + now destruct (K_eq_dec k k).
    + now destruct (K_eq_dec k k').
Qed.

Lemma get_set_other d k k' v :
  k <> k' ->
  Dict.get K_eq_dec (Dict.set K_eq_dec d k v) k' = Dict.get K_eq_dec d k'.
Proof.
  intros Hne. induction d as [| [k0 v0] d IH]; cbn.
  - destruct (K_eq_dec k' k); congruence.
  - destruct (K_eq_dec k k0) as [-> | Hk]; cbn.
    + destruct (K_eq_dec k' k0); congruence.
    + destruct (K_eq_dec k' k0); [reflexivity | exact IH].
Qed.

Lemma in_keys_set d k v x :
  In x (Dict.keys (Dict.set K_eq_dec d k v)) <-> x = k \/ In x (Dict.keys d).
Proof.
  unfold Dict.keys. induction d as [| [k0 v0] d IH]; cbn.
  - intuition congruence.
  - destruct (K_eq_dec k k0) as [-> | Hk]; cbn.
    + intuition congruence.
    + rewrite IH. intuition congruence.
Qed.

Lemma keys_set_present d k v :
  In k (Dict.keys d) -> Dict.keys (Dict.set K_eq_dec d k v) = Dict.keys d.
Proof.
  unfold Dict.keys. induction d as [| [k0 v0] d IH]; cbn.
  - intros [].
  - intros Hin. destruct (K_eq_dec k k0) as [-> | Hk]; cbn.
    + reflexivity.
    + f_equal. apply IH. destruct Hin; congruence.
Qed.

Lemma keys_set_absent d k v :
  ~ In k (Dict.keys d) ->
  Dict.keys (Dict.set K_eq_dec d k v) = Dict.keys d ++ [k].
Proof.
  unfold Dict.keys. induction d as [| [k0 v0] d IH]; cbn.
  - reflexivity.
  - intros Hnotin. destruct (K_eq_dec k k0) as [-> | Hk]; cbn.
    + tauto.
    + f_equal. apply IH. tauto.
Qed.

Lemma nodup_keys_set d k v :
  NoDup (Dict.keys d) -> NoDup (Dict.keys (Dict.set K_eq_dec d k v)).
Proof.
  intros Hnodup. destruct (in_dec K_eq_dec k (Dict.keys d)) as [Hin | Hnotin].
  - now rewrite keys_set_present.
  - rewrite keys_set_absent by exact Hnotin.
    apply NoDup_app; [exact Hnodup | repeat constructor; intros [] |].
    intros x Hx [<- | []]. exact (Hnotin Hx).
Qed.

Lemma get_in_keys d k :
  In k (Dict.keys d) <-> exists v, Dict.get K_eq_dec d k = Some v.
Proof.
  unfold Dict.keys. induction d as [| [k0 v0] d IH]; cbn.
  - split; [intros [] | intros [v Hv]; discriminate].
  - destruct (K_eq_dec k k0) as [-> | Hk].
    + split; eauto.
    + rewrite <- IH. intuition congruence.
Qed.

End DictFacts.

(** ** Order of occurrence *)

Lemma before_cons_iff {A : Type} (z : A) (l : list A) (x y : A) :
  before (z :: l) x y <-> (x = z /\ In y l) \/ before l x y.
Proof.
  split.
  - intros H. inversion H; subst; auto.
  - intros [[-> Hin] | H]; [now apply before_here | now apply before_later].
Qed.

Lemma before_in {A : Type} (l : list A) (x y : A) :
  before l x y -> In x l /\ In y l.
Proof.
  induction 1 as [x y l Hin | z x y l _ [IHx IHy]]; cbn; auto.
Qed.

Lemma before_distinct {A : Type} (l : list A) (x y : A) :
  NoDup l -> before l x y -> x <> y.
Proof.
  intros Hnodup Hbefore.
  induction Hbefore as [x y l Hin | z x y l _ IH].
  - inversion_clear Hnodup as [| ? ? Hnotin _]. congruence.
  - inversion_clear Hnodup. auto.
Qed.

Lemma before_one_way {A : Type} (l : list A) (x y : A) :
  NoDup l -> before l x y -> before l y x -> False.
Proof.
  intros Hnodup Hxy Hyx.
  induction Hxy as [x y l Hin | z x y l Hxy IH].
  - inversion_clear Hnodup as [| ? ? Hnotin Hrest].
    apply before_cons_iff in Hyx as [[-> _] | Hyx]; [contradiction |].
    apply before_in in Hyx as [_ Hx]. contradiction.
  - inversion_clear Hnodup as [| ? ? Hnotin Hrest].
    apply before_cons_iff in Hyx as [[-> _] | Hyx]; [| auto].
    apply before_in in Hxy as [_ Hy]. contradiction.
Qed.

Lemma before_positions {A : Type} (l : list A) :
  forall i j a b,
    (i < j)%nat -> nth_error l i = Some a -> nth_error l j = Some b ->
    before l a b.
Proof.
  induction l as [| z l IH]; intros i j a b Hlt Ha Hb.
  - destruct i; discriminate.
  - destruct j as [| j]; [lia |]. cbn in Hb.
    destruct i as [| i]; cbn in Ha.
    + injection Ha as ->. apply before_here. eapply nth_error_In, Hb.
    + apply before_later. apply (IH i j); [lia | assumption | assumption].
Qed.

Lemma skipn_past {A : Type} (pre : list A) (x : A) (rest : list A) :
  skipn (List.length pre + 1) (pre ++ x :: rest) = rest.
Proof.
  induction pre as [| z pre IH]; cbn; [reflexivity | exact IH].
Qed.

(** ** AdjacencyDetector *)

Section DetectorClaims.

Context {E : GeometryEngine}.

Implicit Types (neighbors : Dict.t (K := str) (V := list str))
  (polygons : Dict.t (K := str) (V := geometry)).

Lemma neighbors_of_set neighbors (k : str) (l : list str) (a : str) :
  neighbors_of (Dict.set str_eq_dec neighbors k l) a
  = if str_eq_dec a k then l else neighbors_of neighbors a.
Proof.
  unfold neighbors_of. destruct (str_eq_dec a k) as [-> | Hne].
  - now rewrite get_set_same.
  - rewrite get_set_other by congruence. reflexivity.
Qed.

Lemma append_at_spec neighbors (k v : str) :
  In k (Dict.keys neighbors) ->
  exists neighbors',
    append_at neighbors k v = Ok neighbors'
    /\ (forall x, In x (Dict.keys neighbors') <-> In x (Dict.keys neighbors))
    /\ forall a b,
         In b (neighbors_of neighbors' a)
         <-> In b (neighbors_of neighbors a) \/ (a = k /\ b = v).
Proof.
  intros Hk.
  destruct (proj1 (get_in_keys str_eq_dec neighbors k) Hk) as [l Hl].
  unfold append_at, Dict.lookup. rewrite Hl. cbn [bind].
  eexists. split; [reflexivity |]. split.
  - intros x. rewrite in_keys_set. intuition congruence.
  - intros a b. rewrite neighbors_of_set.
    destruct (str_eq_dec a k) as [-> | Hne].
    + unfold neighbors_of. rewrite Hl, in_app_iff. cbn. intuition congruence.
    + intuition congruence.
Qed.

Lemma check_pair_spec neighbors (id1 id2 : str) (poly1 poly2 : geometry) :
  In id1 (Dict.keys neighbors) -> In id2 (Dict.keys neighbors) ->
  (forall x, In x (Dict.keys (check_pair neighbors id1 id2 poly1 poly2))
             <-> In x (Dict.keys neighbors))
  /\ forall a b,
       In b (neighbors_of (check_pair neighbors id1 id2 poly1 poly2) a)
       <-> In b (neighbors_of neighbors a)
           \/ (shares_border poly1 poly2 = Ok true
               /\ ((a = id1 /\ b = id2) \/ (a = id2 /\ b = id1))).
Proof.
  intros H1 H2. unfold check_pair.
  destruct (shares_border poly1 poly2) as [[|] | e].
  - destruct (append_at_spec neighbors id1 id2 H1) as (n1 & -> & Hk1 & Hn1).
    destruct (append_at_spec n1 id2 id1 (proj2 (Hk1 id2) H2))
      as (n2 & -> & Hk2 & Hn2).
    split.
    + intros x. now rewrite Hk2, Hk1.
    + intros a b. rewrite Hn2, Hn1. tauto.
  - split; [tauto |]. intros a b. intuition congruence.
  - split; [tauto |]. intros a b. intuition congruence.
Qed.

Lemma inner_loop_spec polygons (id1 : str) (poly1 : geometry) :
  Dict.get str_eq_dec polygons id1 = Some poly1 ->
  forall rest neighbors,
    (forall x, In x rest -> In x (Dict.keys polygons)) ->
    In id1 (Dict.keys neighbors) ->
    (forall x, In x rest -> In x (Dict.keys neighbors)) ->
    exists neighbors',
      for_each rest
        (fun id2 neighbors =>
           poly1 <- Dict.lookup str_eq_dec polygons id1 ;;
           poly2 <- Dict.lookup str_eq_dec polygons id2 ;;
           Ok (check_pair neighbors id1 id2 poly1 poly2))
        neighbors = Ok neighbors'
      /\ (forall x, In x (Dict.keys neighbors') <-> In x (Dict.keys neighbors))
      /\ forall a b,
           In b (neighbors_of neighbors' a)
           <-> In b (neighbors_of neighbors a)
               \/ exists id2 poly2,
                    In id2 rest
                    /\ Dict.get str_eq_dec polygons id2 = Some poly2
                    /\ shares_border poly1 poly2 = Ok true
                    /\ ((a = id1 /\ b = id2) \/ (a = id2 /\ b = id1)).
Proof.
  intros Hpoly1. induction rest as [| id2 rest IH];
    intros neighbors Hpolys Hid1 Hrest.
  - exists neighbors. cbn. split; [reflexivity |]. split; [tauto |].
    intros a b. split; [auto |]. intros [H | (? & ? & [] & _)]. exact H.
  - cbn [for_each]. unfold Dict.lookup at 1 2. rewrite Hpoly1. cbn [bind].
    destruct (proj1 (get_in_keys str_eq_dec polygons id2)
                (Hpolys id2 (or_introl eq_refl))) as [poly2 Hpoly2].
    rewrite Hpoly2. cbn [bind].
    destruct (check_pair_spec neighbors id1 id2 poly1 poly2 Hid1
                (Hrest id2 (or_introl eq_refl))) as [Hkeys Hpair].
    destruct (IH (check_pair neighbors id1 id2 poly1 poly2))
      as (neighbors' & Hrun & Hkeys' & Hspec).
    + intros x Hx. apply Hpolys. now right.
    + now apply Hkeys.
    + intros x Hx. apply Hkeys, Hrest. now right.
    + exists neighbors'. split; [exact Hrun |]. split.
      * intros x. now rewrite Hkeys', Hkeys.
      * intros a b. rewrite Hspec, Hpair. split.
        -- intros [[H | [Hs Hab]] | (x & px & Hx & Hpx & Hs & Hab)].
           ++ now left.
           ++ right. exists id2, poly2. cbn. auto.
           ++ right. exists x, px. cbn. auto.
        -- intros [H | (x & px & [<- | Hx] & Hpx & Hs & Hab)].
           ++ left. now left.
           ++ left. right. split; [congruence | exact Hab].
           ++ right. exists x, px. auto.
Qed.

Lemma outer_loop_spec polygons (ids : list str) :
  (forall x, In x ids -> In x (Dict.keys polygons)) ->
  forall rest pre neighbors,
    ids = pre ++ rest ->
    (forall x, In x ids -> In x (Dict.keys neighbors)) ->
    exists neighbors',
      for_each (combine (seq (List.length pre) (List.length rest)) rest)
        (fun i_id1 neighbors =>
           for_each (skipn (fst i_id1 + 1) ids)
             (fun id2 neighbors =>
                poly1 <- Dict.lookup str_eq_dec polygons (snd i_id1) ;;
                poly2 <- Dict.lookup str_eq_dec polygons id2 ;;
                Ok (check_pair neighbors (snd i_id1) id2 poly1 poly2))
             neighbors)
        neighbors = Ok neighbors'
      /\ (forall x, In x (Dict.keys neighbors') <-> In x (Dict.keys neighbors))
      /\ forall a b,
           In b (neighbors_of neighbors' a)
           <-> In b (neighbors_of neighbors a) \/ registered polygons rest a b.
Proof.
  intros Hpolys. induction rest as [| id1 rest IH];
    intros pre neighbors Hids Hkeys.
  - exists neighbors. cbn. split; [reflexivity |]. split; [tauto |].
    intros a b. split; [auto |].
    intros [H | (x & y & px & py & Hbefore & _)]; [exact H |].
    inversion Hbefore.
  - cbn [List.length seq combine for_each fst snd].
    replace (skipn (List.length pre + 1) ids) with rest
      by (rewrite Hids; symmetry; apply skipn_past).
    assert (Hin1 : In id1 ids).
    { rewrite Hids. apply in_or_app. right. now left. }
    assert (Hrest : forall x, In x rest -> In x ids).
    { intros x Hx. rewrite Hids. apply in_or_app. right. now right. }
    destruct (proj1 (get_in_keys str_eq_dec polygons id1) (Hpolys id1 Hin1))
      as [poly1 Hpoly1].
    destruct (inner_loop_spec polygons id1 poly1 Hpoly1 rest neighbors)
      as (n1 & -> & Hk1 & Hn1); auto.
    cbn [bind].
    destruct (IH (pre ++ [id1]) n1) as (n2 & Hrun & Hk2 & Hn2).
    + rewrite Hids, <- app_assoc. reflexivity.
    + intros x Hx. now apply Hk1, Hkeys.
    + rewrite length_app, Nat.add_1_r in Hrun. cbn [List.length] in Hrun.
      exists n2. split; [exact Hrun |]. split.
      * intros x. now rewrite Hk2, Hk1.
      * intros a b. rewrite Hn2, Hn1. unfold registered. split.
        -- intros [[H | (id2 & poly2 & Hin & Hp2 & Hs & Hab)]
                  | (x & y & px & py & Hb & Hrem)].
           ++ now left.
           ++ right. exists id1, id2, poly1, poly2.
              split; [now apply before_here | auto].
           ++ right. exists x, y, px, py.
              split; [now apply before_later | exact Hrem].
        -- intros [H | (x & y & px & py & Hb & Hpx & Hpy & Hs & Hab)];
             [left; now left |].
           apply before_cons_iff in Hb as [[-> Hin] | Hb].
           ++ left. right. exists y, py.
              assert (px = poly1) as -> by congruence. auto.
           ++ right. exists x, y, px, py. auto.
Qed.

Lemma build_polygons_keys_from (provinces : list Province.t) :
  forall polygons,
    NoDup (Dict.keys polygons) ->
    NoDup (Dict.keys
             (fold_left
                (fun polygons province =>
                   match build_polygon (Province.coordinates province) with
                   | Ok poly =>
                       Dict.set str_eq_dec polygons (Province.id province) poly
                   | Raise _ => polygons
                   end)
                provinces polygons))
    /\ forall k,
         In k (Dict.keys
                 (fold_left
                    (fun polygons province =>
                       match build_polygon (Province.coordinates province) with
                       | Ok poly =>
                           Dict.set str_eq_dec polygons (Province.id province) poly
                       | Raise _ => polygons
                       end)
                    provinces polygons)) ->
         In k (Dict.keys polygons)
         \/ exists p, In p provinces /\ Province.id p = k.
Proof.
  induction provinces as [| p provinces IH]; intros polygons Hnodup.
  - cbn. auto.
  - cbn [fold_left].
    destruct (build_polygon (Province.coordinates p)) as [poly | e].
    + destruct (IH (Dict.set str_eq_dec polygons (Province.id p) poly))
        as [Hnd Hkeys]; [now apply nodup_keys_set |].
      split; [exact Hnd |].
      intros k Hk. destruct (Hkeys k Hk) as [Hset | (q & Hq & Hid)].
      * apply in_keys_set in Hset as [-> | Hold]; [| now left].
        right. exists p. split; [now left | reflexivity].
      * right. exists q. split; [now right | exact Hid].
    + destruct (IH polygons Hnodup) as [Hnd Hkeys].
      split; [exact Hnd |].
      intros k Hk. destruct (Hkeys k Hk) as [Hold | (q & Hq & Hid)];
        [now left |].
      right. exists q. split; [now right | exact Hid].
Qed.

Lemma build_polygons_nodup (provinces : list Province.t) :
  NoDup (Dict.keys (build_polygons provinces)).
Proof.
  apply (build_polygons_keys_from provinces []). constructor.
Qed.

Lemma build_polygons_keys (provinces : list Province.t) (k : str) :
  In k (Dict.keys (build_polygons provinces)) ->
  exists p, In p provinces /\ Province.id p = k.
Proof.
  intros Hk.
  destruct (proj2 (build_polygons_keys_from provinces [] (NoDup_nil _)) k Hk)
    as [[] | H].
  exact H.
Qed.

Lemma empty_neighbors_from (provinces : list Province.t) :
  forall neighbors,
    (forall k l, Dict.get str_eq_dec neighbors k = Some l -> l = []) ->
    (forall k l,
       Dict.get str_eq_dec
         (fold_left (fun d p => Dict.set str_eq_dec d (Province.id p) [])
            provinces neighbors) k = Some l -> l = [])
    /\ forall k,
         In k (Dict.keys neighbors)
         \/ (exists p, In p provinces /\ Province.id p = k) ->
         In k (Dict.keys
                 (fold_left (fun d p => Dict.set str_eq_dec d (Province.id p) [])
                    provinces neighbors)).
Proof.
  induction provinces as [| p provinces IH]; intros neighbors Hempty.
  - cbn. split; [exact Hempty |].
    intros k [H | (q & [] & _)]. exact H.
  - cbn [fold_left].
    destruct (IH (Dict.set str_eq_dec neighbors (Province.id p) []))
      as [Hvalues Hkeys].
    + intros k l. destruct (str_eq_dec (Province.id p) k) as [<- | Hne].
      * rewrite get_set_same. congruence.
      * rewrite get_set_other by exact Hne. apply Hempty.
    + split; [exact Hvalues |].
      intros k [H | (q & [<- | Hq] & Hid)]; apply Hkeys.
      * left. apply in_keys_set. now right.
      * left. apply in_keys_set. now left.
      * right. now exists q.
Qed.

Lemma empty_neighbors_empty (provinces : list Province.t) (a : str) :
  neighbors_of (empty_neighbors provinces) a = [].
Proof.
  unfold neighbors_of.
  destruct (Dict.get str_eq_dec (empty_neighbors provinces) a) as [l |] eqn:Hl;
    [| reflexivity].
  refine (proj1 (empty_neighbors_from provinces [] _) a l Hl).
  intros k l0 H. discriminate H.
Qed.

End DetectorClaims.

Section AdjacencyClaims.

Context {E : GeometryEngine}.

Lemma shares_border_true_iff (poly1 poly2 : geometry) :
  shares_border poly1 poly2 = Ok true <-> border_longer_than_one poly1 poly2.
Proof.
  unfold shares_border, border_longer_than_one.
  assert (Hlong : forall l, negb (Qle_bool l 1) = true <-> (1 < l)%Q).
  { intros l. rewrite negb_true_iff. split.
    - intros Hle. apply Qnot_le_lt. intros H.
      apply Qle_bool_iff in H. congruence.
    - intros Hlt. destruct (Qle_bool l 1) eqn:Hle; [| reflexivity].
      apply Qle_bool_iff in Hle. exfalso. exact (Qlt_not_le _ _ Hlt Hle). }
  split.
  - intros Hrun.
    destruct (touches poly1 poly2) as [t | e] eqn:Ht; [| discriminate].
    cbn [bind] in Hrun.
    assert (Hcontact :
              (Ok t = Ok true \/ (Ok t = Ok false /\ intersects poly1 poly2 = Ok true))
              /\ (inter <- intersection poly1 poly2 ;;
                  l <- geom_length inter ;;
                  Ok (negb (Qle_bool l 1))) = Ok true).
    { destruct t; cbn [bind] in Hrun; [auto |].
      destruct (intersects poly1 poly2) as [[|] | e];
        cbn [bind] in Hrun; try discriminate. auto. }
    destruct Hcontact as [Hcontact Hlength]. split; [exact Hcontact |].
    destruct (intersection poly1 poly2) as [inter | e] eqn:Hinter;
      [| discriminate].
    cbn [bind] in Hlength.
    destruct (geom_length inter) as [l | e] eqn:Hlen; [| discriminate].
    cbn [bind] in Hlength. exists inter, l.
    split; [reflexivity |]. split; [exact Hlen |].
    apply Hlong. congruence.
  - intros [Hcontact (inter & l & Hinter & Hlen & Hlt)].
    apply Hlong in Hlt.
    destruct Hcontact as [-> | [-> ->]]; cbn [bind];
      rewrite Hinter; cbn [bind]; rewrite Hlen; cbn [bind]; now rewrite Hlt.
Qed.

Lemma detect_neighbors_spec (provinces : list Province.t) :
  exists neighbors,
    detect_neighbors provinces = Ok neighbors
    /\ forall a b,
         In b (neighbors_of neighbors a)
         <-> registered (build_polygons provinces)
               (Dict.keys (build_polygons provinces)) a b.
Proof.
  unfold detect_neighbors, check_adjacency, enumerate.
  destruct (outer_loop_spec (build_polygons provinces)
              (Dict.keys (build_polygons provinces)) (fun x H => H)
              (Dict.keys (build_polygons provinces)) []
              (empty_neighbors provinces) eq_refl)
    as (neighbors & Hrun & _ & Hspec).
  - intros x Hx. apply build_polygons_keys in Hx.
    refine (proj2 (empty_neighbors_from provinces [] _) x (or_intror Hx)).
    intros k l H. discriminate H.
  - exists neighbors. split; [exact Hrun |].
    intros a b. rewrite Hspec, empty_neighbors_empty. cbn. tauto.
Qed.

(** C4.  Neighbor detection returns, and the graph it returns is symmetric
    and irreflexive. *)
Theorem adjacency_symmetric_irreflexive (provinces : list Province.t) :
  exists neighbors,
    detect_neighbors provinces = Ok neighbors
    /\ (forall a b,
          In b (neighbors_of neighbors a) <-> In a (neighbors_of neighbors b))
    /\ (forall a, ~ In a (neighbors_of neighbors a)).
Proof.
  destruct (detect_neighbors_spec provinces) as (neighbors & Hrun & Hspec).
  exists neighbors. split; [exact Hrun |]. split.
  - intros a b. rewrite !Hspec. unfold registered.
    split; intros (x & y & px & py & Hb & Hpx & Hpy & Hs & Hab);
      exists x, y, px, py; tauto.
  - intros a Ha. apply Hspec in Ha as (x & y & px & py & Hb & _ & _ & _ & Hab).
    apply (before_distinct _ _ _ (build_polygons_nodup provinces)) in Hb.
    destruct Hab as [[-> ->] | [-> ->]]; congruence.
Qed.

(** C1 (amended).  For every pair of provinces whose polygons are built,
    taken in the order of their identifiers in the dictionary of polygons,
    each is registered as a neighbor of the other if and only if the
    contact test succeeds ([touches] or else [intersects]) and the
    intersection of the two polygons, as the library computes it, has a
    length strictly greater than 1: the length of the shared border when
    the polygons only touch, the perimeter of the common region when they
    overlap.  A library call that raises leaves the pair unregistered. *)
Theorem adjacency_by_polygon_intersection (provinces : list Province.t)
  (i j : nat) (a b : str) (pa pb : geometry) :
  (i < j)%nat ->
  nth_error (Dict.keys (build_polygons provinces)) i = Some a ->
  nth_error (Dict.keys (build_polygons provinces)) j = Some b ->
  Dict.get str_eq_dec (build_polygons provinces) a = Some pa ->
  Dict.get str_eq_dec (build_polygons provinces) b = Some pb ->
  exists neighbors,
    detect_neighbors provinces = Ok neighbors
    /\ (In b (neighbors_of neighbors a) <-> border_longer_than_one pa pb)
    /\ (In a (neighbors_of neighbors b) <-> border_longer_than_one pa pb).
Proof.
  intros Hlt Ha Hb Hpa Hpb.
  destruct (detect_neighbors_spec provinces) as (neighbors & Hrun & Hspec).
  exists neighbors. split; [exact Hrun |].
  pose proof (build_polygons_nodup provinces) as Hnodup.
  pose proof (before_positions _ _ _ _ _ Hlt Ha Hb) as Hab.
  assert (Hpair : registered (build_polygons provinces)
                    (Dict.keys (build_polygons provinces)) a b
                  <-> border_longer_than_one pa pb).
  { rewrite <- shares_border_true_iff. unfold registered. split.
    - intros (x & y & px & py & Hxy & Hpx & Hpy & Hs & [[-> ->] | [-> ->]]).
      + congruence.
      + destruct (before_one_way _ _ _ Hnodup Hab Hxy).
    - intros Hs. exists a, b, pa, pb. tauto. }
  split.
  - now rewrite Hspec.
  - rewrite Hspec, <- Hpair. unfold registered.
    split; intros (x & y & px & py & Hxy & Hpx & Hpy & Hs & Hcase);
      exists x, y, px, py; tauto.
Qed.

End AdjacencyClaims.

Lemma adjacency_by_polygon_intersection_witness :
  exists neighbors,
    detect_neighbors (E := Mini.engine Mini.keep)
      [Province.mk [65] "West" "p0" [(0, 0); (10, 0); (10, 10); (0, 10)]
         (5, 5) false;
       Province.mk [66] "East" "p1" [(10, 0); (20, 0); (20, 10); (10, 10)]
         (15, 5) false]
    = Ok neighbors
    /\ (In [66] (neighbors_of neighbors [65])
        <-> border_longer_than_one (E := Mini.engine Mini.keep)
              (Mini.Area [(0, 0); (10, 0); (10, 10); (0, 10); (0, 0)]%Q)
              (Mini.Area [(10, 0); (20, 0); (20, 10); (10, 10); (10, 0)]%Q))
    /\ (In [65] (neighbors_of neighbors [66])
        <-> border_longer_than_one (E := Mini.engine Mini.keep)
              (Mini.Area [(0, 0); (10, 0); (10, 10); (0, 10); (0, 0)]%Q)
              (Mini.Area [(10, 0); (20, 0); (20, 10); (10, 10); (10, 0)]%Q)).
Proof.
  apply (adjacency_by_polygon_intersection (E := Mini.engine Mini.keep)
           _ 0%nat 1%nat [65] [66]).
  - lia.
  - vm_compute. reflexivity.
  - vm_compute. reflexivity.
  - vm_compute. reflexivity.
  - vm_compute. reflexivity.
Defined.

(** The squares of the specification: two that share a full edge are
    neighbors, two that share a corner only are not. *)
Example edge_sharing_squares_adjacent :
  detect_neighbors (E := Mini.engine Mini.keep)
    [Province.mk [65] "West" "p0" [(0, 0); (10, 0); (10, 10); (0, 10)]
       (5, 5) false;
     Province.mk [66] "East" "p1" [(10, 0); (20, 0); (20, 10); (10, 10)]
       (15, 5) false]
  = Ok [([65], [[66]]); ([66], [[65]])].
Proof. vm_compute. reflexivity. Qed.

Example corner_sharing_squares_apart :
  detect_neighbors (E := Mini.engine Mini.keep)
    [Province.mk [65] "West" "p0" [(0, 0); (10, 0); (10, 10); (0, 10)]
       (5, 5) false;
     Province.mk [66] "North-East" "p1" [(10, 10); (20, 10); (20, 20); (10, 20)]
       (15, 15) false]
  = Ok [([65], []); ([66], [])].
Proof. vm_compute. reflexivity. Qed.

(** C1, as it is worded, fails.  The squares [0,10] x [0,10] and
    [5,15] x [5,15] overlap: their boundaries cross at the two points
    (10,5) and (5,10), an intersection of length 0, while the two polygons
    intersect in a square of perimeter 20, and the pair is registered. *)
Lemma overlapping_squares_registered :
  ~ registered_by_boundary_length (E := Mini.engine Mini.keep)
      [Province.mk [65] "West" "p0" [(0, 0); (10, 0); (10, 10); (0, 10)]
         (5, 5) false;
       Province.mk [66] "Middle" "p1" [(5, 5); (15, 5); (15, 15); (5, 15)]
         (10, 10) false].
Proof.
  intros Hclaim.
  specialize (Hclaim [([65], [[66]]); ([66], [[65]])] [65] [66]
                (Mini.Area [(0, 0); (10, 0); (10, 10); (0, 10); (0, 0)]%Q)
                (Mini.Area [(5, 5); (15, 5); (15, 15); (5, 15); (5, 5)]%Q)).
  destruct Hclaim as [Hregistered _].
  - vm_compute. reflexivity.
  - vm_compute. reflexivity.
  - vm_compute. reflexivity.
  - discriminate.
  - destruct Hregistered as (l & Hl & Hlt).
    + vm_compute. auto.
    + vm_compute in Hl. injection Hl as <-.
      vm_compute in Hlt. discriminate Hlt.
Qed.

(** * Further properties of the pipeline *)

(** ** PathParser: what a parsed path consists of *)

Lemma for_each_fold {A S : Type} (body : A -> S -> result S) (f : S -> A -> S)
  (l : list A) :
  (forall a st, In a l -> body a st = Ok (f st a)) ->
  forall st, for_each l body st = Ok (fold_left f l st).
Proof.
  induction l as [| a l IH]; intros Hbody st; cbn.
  - reflexivity.
  - rewrite Hbody by now left. cbn. apply IH.
    intros b st' Hb. apply Hbody. now right.
Qed.

Lemma skipn_two {A : Type} (l : list A) :
  forall i x y,
    nth_error l i = Some x -> nth_error l (i + 1) = Some y ->
    skipn i l = x :: y :: skipn (i + 2) l.
Proof.
  induction l as [| a l IH]; intros i x y Hx Hy.
  - destruct i; discriminate.
  - destruct i as [| i]; cbn in Hx, Hy |- *.
    + injection Hx as ->. destruct l as [| b l]; [discriminate |].
      cbn in Hy. now injection Hy as ->.
    + now apply IH.
Qed.

Section PairsLoop.

(** A loop body that turns [numbers[i]] and [numbers[i+1]] into one move
    of the cursor. *)
Variables (numbers : list float) (step : nat -> cursor -> result cursor)
  (move : cursor -> point -> cursor).

Hypothesis step_moves :
  forall i st x y,
    nth_error numbers i = Some x -> nth_error numbers (i + 1) = Some y ->
    step i st = Ok (move st (x, y)).

Lemma pairs_loop_bounded (k : nat) :
  forall start st,
    (List.length numbers - start <= k)%nat ->
    (start <= List.length numbers)%nat ->
    Nat.even (List.length numbers - start) = true ->
    for_each (range2 start (List.length numbers)) step st
    = Ok (fold_left move (pairs (skipn start numbers)) st).
Proof.
  induction k as [k IH] using lt_wf_ind.
  intros start st Hk Hstart Heven.
  destruct (Nat.eq_dec start (List.length numbers)) as [-> | Hne].
  - rewrite range2_empty by lia. rewrite skipn_all. reflexivity.
  - assert (Hroom : (start + 1 < List.length numbers)%nat).
    { destruct (Nat.eq_dec (start + 1) (List.length numbers)) as [Hlast |];
        [| lia].
      replace (List.length numbers - start)%nat with 1%nat in Heven by lia.
      discriminate. }
    destruct (nth_error numbers start) as [x |] eqn:Hx;
      [| apply nth_error_None in Hx; lia].
    destruct (nth_error numbers (start + 1)) as [y |] eqn:Hy;
      [| apply nth_error_None in Hy; lia].
    rewrite range2_step by lia. cbn [for_each].
    rewrite (step_moves start st x y Hx Hy). cbn [bind].
    rewrite (skipn_two numbers start x y Hx Hy). cbn [pairs fold_left].
    apply (IH (k - 2)%nat); try lia.
    replace (List.length numbers - start)%nat
      with (S (S (List.length numbers - (start + 2)))) in Heven by lia.
    exact Heven.
Qed.

Lemma pairs_loop (start : nat) (st : cursor) :
  (start <= List.length numbers)%nat ->
  Nat.even (List.length numbers - start) = true ->
  for_each (range2 start (List.length numbers)) step st
  = Ok (fold_left move (pairs (skipn start numbers)) st).
Proof.
  intros Hstart Heven.
  apply (pairs_loop_bounded (List.length numbers - start)); auto.
Qed.

(** The loop of a move command: the first pair, then the others. *)
Lemma pairs_move (st : cursor) :
  (2 <=? List.length numbers)%nat && Nat.even (List.length numbers) = true ->
  (st1 <- step 0%nat st ;;
   for_each (range2 2 (List.length numbers)) step st1)
  = Ok (fold_left move (pairs numbers) st).
Proof.
  intros Harity. apply andb_true_iff in Harity as [Hlen Heven].
  apply Nat.leb_le in Hlen.
  destruct (nth_error numbers 0) as [x |] eqn:Hx;
    [| apply nth_error_None in Hx; lia].
  destruct (nth_error numbers (0 + 1)) as [y |] eqn:Hy;
    [| apply nth_error_None in Hy; lia].
  rewrite (step_moves 0%nat st x y Hx Hy). cbn [bind].
  rewrite pairs_loop.
  - change (pairs numbers) with (pairs (skipn 0 numbers)).
    rewrite (skipn_two numbers 0 x y Hx Hy). reflexivity.
  - exact Hlen.
  - rewrite <- Heven.
    destruct (List.length numbers) as [| [| n]]; [lia | lia |].
    cbn [Nat.even]. f_equal. lia.
Qed.

(** The loop of a line command. *)
Lemma pairs_line (st : cursor) :
  Nat.even (List.length numbers) = true ->
  for_each (range2 0 (List.length numbers)) step st
  = Ok (fold_left move (pairs numbers) st).
Proof.
  intros Heven. rewrite pairs_loop.
  - reflexivity.
  - lia.
  - now rewrite Nat.sub_0_r.
Qed.

End PairsLoop.

Lemma step_absolute_moves (numbers : list float) (i : nat) (st : cursor)
  (x y : float) :
  nth_error numbers i = Some x -> nth_error numbers (i + 1) = Some y ->
  step_absolute numbers i st = Ok (move_to st (x, y)).
Proof.
  intros Hx Hy. unfold step_absolute, index. now rewrite Hx, Hy.
Qed.

Lemma step_relative_moves (numbers : list float) (i : nat) (st : cursor)
  (x y : float) :
  nth_error numbers i = Some x -> nth_error numbers (i + 1) = Some y ->
  step_relative numbers i st = Ok (move_by st (x, y)).
Proof.
  intros Hx Hy. unfold step_relative, index. now rewrite Hx, Hy.
Qed.

Lemma run_command_draws (c : ascii * list ascii) (st : cursor) :
  arity_ok c = true ->
  run_command (fst c) (snd c) st = Ok (draw_command st c).
Proof.
  destruct c as [cmd args]. unfold arity_ok, run_command, draw_command.
  cbn [fst snd].
  destruct args as [| ch args].
  { intros _. replace (numbers_of []) with (@nil float) by reflexivity.
    cbn [pairs fold_left].
    destruct (Ascii.eqb (PathParser.upper cmd) "Z");
      destruct (Ascii.eqb cmd "M" || Ascii.eqb cmd "L");
      destruct (Ascii.eqb cmd "m" || Ascii.eqb cmd "l"); reflexivity. }
  set (numbers := numbers_of (ch :: args)).
  destruct (Ascii.eqb cmd "M") eqn:HM; cbn [orb].
  { intros Harity.
    apply (pairs_move numbers (step_absolute numbers) move_to
             (step_absolute_moves numbers) st Harity). }
  destruct (Ascii.eqb cmd "m") eqn:Hm; cbn [orb].
  { intros Harity.
    assert (HL : Ascii.eqb cmd "L" = false).
    { apply Ascii.eqb_eq in Hm. now subst cmd. }
    rewrite HL.
    apply (pairs_move numbers (step_relative numbers) move_by
             (step_relative_moves numbers) st Harity). }
  destruct (Ascii.eqb cmd "L") eqn:HL; cbn [orb].
  { intros Heven.
    apply (pairs_line numbers (step_absolute numbers) move_to
             (step_absolute_moves numbers) st Heven). }
  destruct (Ascii.eqb cmd "l") eqn:Hl; cbn [orb].
  { intros Heven.
    apply (pairs_line numbers (step_relative numbers) move_by
             (step_relative_moves numbers) st Heven). }
  reflexivity.
Qed.

Lemma parse_as_fold (path_data : string) :
  forallb arity_ok (commands_of path_data) = true ->
  parse_svg_path_to_coords path_data
  = Ok (coords (fold_left draw_command (commands_of path_data)
                  (mkCursor [] 0%Q 0%Q))).
Proof.
  intros Hall. unfold parse_svg_path_to_coords.
  rewrite (for_each_fold (fun c st => run_command (fst c) (snd c) st)
             draw_command).
  - reflexivity.
  - intros c st Hc. apply run_command_draws.
    rewrite forallb_forall in Hall. now apply Hall.
Qed.

(** X1.  When every command carries enough numbers, the parsed path is
    what the commands draw pair by pair from the cursor (0, 0): [M] and [L]
    append each pair of numbers as a point, [m] and [l] append the running
    sums, and a close command or a command without numbers appends nothing
    and leaves the cursor where it is. *)
Theorem parse_draws_pairs (path_data : string) :
  forallb arity_ok (commands_of path_data) = true ->
  parse_svg_path_to_coords path_data
  = Ok (coords (fold_left draw_command (commands_of path_data)
                  (mkCursor [] 0%Q 0%Q))).
Proof. exact (parse_as_fold path_data). Qed.

Lemma parse_draws_pairs_witness :
  forallb arity_ok (commands_of "m 5 5 l 5 0 l 0 5 z") = true
  /\ parse_svg_path_to_coords "m 5 5 l 5 0 l 0 5 z"
     = Ok (coords (fold_left draw_command (commands_of "m 5 5 l 5 0 l 0 5 z")
                     (mkCursor [] 0%Q 0%Q))).
Proof.
  split.
  - vm_compute. reflexivity.
  - apply parse_draws_pairs. vm_compute. reflexivity.
Defined.

Lemma length_pairs (numbers : list float) :
  List.length (pairs numbers) = (List.length numbers / 2)%nat.
Proof.
  assert (H : forall k l, (List.length l <= k)%nat ->
                          List.length (pairs l) = (List.length l / 2)%nat).
  { induction k as [k IH] using lt_wf_ind. intros l Hk.
    destruct l as [| x [| y l]]; try reflexivity.
    cbn [pairs List.length].
    rewrite (IH (k - 2)%nat) by (cbn in Hk; lia).
    change (S (S (List.length l))) with (2 + List.length l)%nat.
    replace (2 + List.length l)%nat with (List.length l + 1 * 2)%nat by lia.
    rewrite Nat.div_add by lia. lia. }
  apply (H (List.length numbers)). lia.
Qed.

Lemma length_move_to (ps : list point) :
  forall st,
    List.length (coords (fold_left move_to ps st))
    = (List.length (coords st) + List.length ps)%nat.
Proof.
  induction ps as [| p ps IH]; intros st; cbn [fold_left List.length].
  - lia.
  - rewrite IH. unfold move_to. cbn [coords]. rewrite length_app. cbn. lia.
Qed.

Lemma length_move_by (ps : list point) :
  forall st,
    List.length (coords (fold_left move_by ps st))
    = (List.length (coords st) + List.length ps)%nat.
Proof.
  induction ps as [| p ps IH]; intros st; cbn [fold_left List.length].
  - lia.
  - rewrite IH. unfold move_by. cbn [coords]. rewrite length_app. cbn. lia.
Qed.

Lemma length_draw_commands (cmds : list (ascii * list ascii)) :
  forall st,
    List.length (coords (fold_left draw_command cmds st))
    = (List.length (coords st)
       + list_sum (map (fun c => if draws c
                                 then List.length (numbers_of (snd c)) / 2
                                 else 0)
                       cmds))%nat.
Proof.
  induction cmds as [| c cmds IH]; intros st;
    cbn [fold_left map list_sum fold_right].
  - lia.
  - rewrite IH.
    change (fold_right Nat.add 0%nat) with list_sum.
    rewrite Nat.add_assoc. f_equal.
    unfold draw_command, draws. cbn [existsb].
    destruct (Ascii.eqb (fst c) "M") eqn:HM.
    + cbn [orb]. now rewrite length_move_to, length_pairs.
    + destruct (Ascii.eqb (fst c) "m") eqn:Hm.
      * assert (HL : Ascii.eqb (fst c) "L" = false).
        { apply Ascii.eqb_eq in Hm. now rewrite Hm. }
        rewrite HL. cbn [orb]. now rewrite length_move_by, length_pairs.
      * destruct (Ascii.eqb (fst c) "L") eqn:HL.
        -- cbn [orb]. now rewrite length_move_to, length_pairs.
        -- cbn [orb]. destruct (Ascii.eqb (fst c) "l"); cbn [orb].
           ++ now rewrite length_move_by, length_pairs.
           ++ lia.
Qed.

(** X2.  A parsed path has one point for every pair of numbers carried by
    its [M], [m], [L] and [l] commands, and no other point: close commands
    and whatever follows them contribute none. *)
Theorem parse_point_count (path_data : string) (points : list point) :
  parse_svg_path_to_coords path_data = Ok points ->
  List.length points
  = list_sum (map (fun c => if draws c
                            then List.length (numbers_of (snd c)) / 2
                            else 0)%nat
                  (commands_of path_data)).
Proof.
  intros Hparse.
  destruct (forallb arity_ok (commands_of path_data)) eqn:Hall.
  - rewrite (parse_as_fold path_data Hall) in Hparse.
    injection Hparse as <-.
    rewrite length_draw_commands. reflexivity.
  - rewrite (parse_raises path_data Hall) in Hparse. discriminate.
Qed.

Lemma parse_point_count_witness :
  parse_svg_path_to_coords "M 0 0 L 10 0 L 10 10 L 0 10 Z"
  = Ok [(0, 0); (10, 0); (10, 10); (0, 10)]%Q
  /\ List.length [(0, 0); (10, 0); (10, 10); (0, 10)]%Q
     = list_sum (map (fun c => if draws c
                               then List.length (numbers_of (snd c)) / 2
                               else 0)%nat
                     (commands_of "M 0 0 L 10 0 L 10 10 L 0 10 Z")).
Proof.
  split.
  - vm_compute. reflexivity.
  - apply (parse_point_count "M 0 0 L 10 0 L 10 10 L 0 10 Z").
    vm_compute. reflexivity.
Defined.

(** ** Rounding *)

Lemma round_cases (x : float) :
  (round x = Qfloor x /\ (x - inject_Z (Qfloor x) <= 1 # 2)%Q)
  \/ (round x = Qfloor x + 1 /\ (1 # 2 <= x - inject_Z (Qfloor x))%Q).
Proof.
  unfold round.
  destruct (Qcompare (x - inject_Z (Qfloor x)) (1 # 2)) eqn:Hcmp.
  - apply Qeq_alt in Hcmp.
    destruct (Z.even (Qfloor x)); [left | right]; split;
      try reflexivity; rewrite Hcmp; apply Qle_refl.
  - apply Qlt_alt in Hcmp. left. split; [reflexivity |].
    now apply Qlt_le_weak.
  - apply Qgt_alt in Hcmp. right. split; [reflexivity |].
    now apply Qlt_le_weak.
Qed.

(** Rounding moves a number by at most one half. *)
Lemma round_close (x : float) :
  (inject_Z (round x) - (1 # 2) <= x <= inject_Z (round x) + (1 # 2))%Q.
Proof.
  pose proof (Qfloor_le x) as Hlow.
  pose proof (Qlt_floor x) as Hhigh.
  rewrite inject_Z_plus in Hhigh. change (inject_Z 1) with 1%Q in Hhigh.
  destruct (round_cases x) as [[-> Hr] | [-> Hr]].
  - split; lra.
  - rewrite inject_Z_plus. change (inject_Z 1) with 1%Q. split; lra.
Qed.

(** Rounding keeps a number between two integers that enclose it. *)
Lemma round_between (a b : Z) (x : float) :
  (inject_Z a <= x <= inject_Z b)%Q -> a <= round x <= b.
Proof.
  intros [Ha Hb].
  pose proof (Qfloor_resp_le _ _ Ha) as Hfa. rewrite Qfloor_Z in Hfa.
  pose proof (Qfloor_resp_le _ _ Hb) as Hfb. rewrite Qfloor_Z in Hfb.
  destruct (round_cases x) as [[-> Hr] | [-> Hr]]; [lia |].
  split; [lia |].
  destruct (Z.eq_dec (Qfloor x) b) as [Heq | Hne]; [| lia].
  exfalso. rewrite Heq in Hr. lra.
Qed.

(** ** CentroidCalculator: the fallback *)

Lemma sum_from (l : list Z) :
  forall acc, fold_left Z.add l acc = acc + fold_left Z.add l 0.
Proof.
  induction l as [| z l IH]; intros acc; cbn [fold_left].
  - lia.
  - rewrite (IH (acc + z)), (IH (0 + z)). lia.
Qed.

Lemma sum_bounds (lo hi : Z) (l : list Z) :
  (forall z, In z l -> lo <= z <= hi) ->
  lo * Z.of_nat (List.length l) <= fold_left Z.add l 0
  <= hi * Z.of_nat (List.length l).
Proof.
  induction l as [| z l IH]; intros Hall.
  - cbn. lia.
  - cbn [fold_left List.length]. rewrite sum_from.
    assert (Hz : lo <= z <= hi) by (apply Hall; now left).
    assert (Hl : lo * Z.of_nat (List.length l) <= fold_left Z.add l 0
                 <= hi * Z.of_nat (List.length l)).
    { apply IH. intros y Hy. apply Hall. now right. }
    lia.
Qed.

Lemma mean_bounds (lo hi s n : Z) :
  0 < n -> lo * n <= s <= hi * n ->
  (inject_Z lo <= fdiv (inject_Z s) (inject_Z n) <= inject_Z hi)%Q.
Proof.
  intros Hn [Hlo Hhi]. unfold fdiv. rewrite Qred_correct.
  assert (Hpos : (0 < inject_Z n)%Q).
  { change 0%Q with (inject_Z 0). now rewrite <- Zlt_Qlt. }
  split.
  - apply Qle_shift_div_l; [exact Hpos |].
    rewrite <- inject_Z_mult. now rewrite <- Zle_Qle.
  - apply Qle_shift_div_r; [exact Hpos |].
    rewrite <- inject_Z_mult. now rewrite <- Zle_Qle.
Qed.

Section CentroidFallback.

Context {E : GeometryEngine}.

Lemma calculate_centroid_fallback (coords : list ipoint) (e : exn) :
  coords <> [] ->
  polygon_centroid coords = Raise e ->
  calculate_centroid coords = Ok (round_point (vertex_mean coords)).
Proof.
  intros Hne Hraise. unfold calculate_centroid. rewrite Hraise. cbn [bind].
  unfold true_div.
  assert (Hlen : (len coords =? 0) = false).
  { apply Z.eqb_neq. unfold len. destruct coords; [congruence | cbn; lia]. }
  rewrite Hlen. reflexivity.
Qed.

Lemma calculate_centroid_returns (coords : list ipoint) :
  coords <> [] -> exists c, calculate_centroid coords = Ok c.
Proof.
  intros Hne.
  destruct (polygon_centroid coords) as [c | e] eqn:Hcentroid.
  - unfold calculate_centroid. rewrite Hcentroid. cbn [bind]. eauto.
  - rewrite (calculate_centroid_fallback coords e Hne Hcentroid). eauto.
Qed.

(** X3.  On the empty list, when the library gives no centroid, the
    fallback divides by zero: [calculate_centroid] raises
    [ZeroDivisionError]. *)
Theorem calculate_centroid_empty (e : exn) :
  polygon_centroid [] = Raise e ->
  calculate_centroid [] = Raise ZeroDivisionError.
Proof.
  intros Hraise. unfold calculate_centroid. rewrite Hraise. reflexivity.
Qed.

(** X4.  The fallback centroid lies in the bounding box of the vertices:
    when the library gives no centroid for a non-empty list whose vertices
    all lie in the box [xlo, xhi] x [ylo, yhi], the returned point lies in
    that box. *)
Theorem fallback_centroid_in_bounding_box (coords : list ipoint) (e : exn)
  (xlo xhi ylo yhi : Z) :
  coords <> [] ->
  polygon_centroid coords = Raise e ->
  (forall c, In c coords -> xlo <= fst c <= xhi /\ ylo <= snd c <= yhi) ->
  exists p,
    calculate_centroid coords = Ok p
    /\ xlo <= fst p <= xhi /\ ylo <= snd p <= yhi.
Proof.
  intros Hne Hraise Hbox.
  rewrite (calculate_centroid_fallback coords e Hne Hraise).
  eexists. split; [reflexivity |].
  assert (Hn : 0 < len coords).
  { unfold len. destruct coords; [congruence | cbn; lia]. }
  unfold round_point, vertex_mean. cbn [fst snd]. split.
  - apply round_between, mean_bounds; [exact Hn |].
    pose proof (sum_bounds xlo xhi (map fst coords)) as Hsum.
    rewrite length_map in Hsum. apply Hsum. intros z Hz.
    apply in_map_iff in Hz as (c & <- & Hc). now apply Hbox.
  - apply round_between, mean_bounds; [exact Hn |].
    pose proof (sum_bounds ylo yhi (map snd coords)) as Hsum.
    rewrite length_map in Hsum. apply Hsum. intros z Hz.
    apply in_map_iff in Hz as (c & <- & Hc). now apply Hbox.
Qed.

End CentroidFallback.

Lemma calculate_centroid_empty_witness :
  calculate_centroid (E := Mini.engine Mini.keep) [] = Raise ZeroDivisionError.
Proof.
  apply (calculate_centroid_empty (E := Mini.engine Mini.keep) ValueError).
  vm_compute. reflexivity.
Defined.

Lemma fallback_centroid_in_bounding_box_witness :
  exists p,
    calculate_centroid (E := Mini.engine Mini.keep) [(0, 0); (1, 0); (5, 0)]
    = Ok p
    /\ 0 <= fst p <= 5 /\ 0 <= snd p <= 0.
Proof.
  apply (fallback_centroid_in_bounding_box (E := Mini.engine Mini.keep)
           [(0, 0); (1, 0); (5, 0)] GeometryError 0 5 0 0).
  - discriminate.
  - vm_compute. reflexivity.
  - intros c [<- | [<- | [<- | []]]]; cbn; lia.
Defined.

(** ** RingSimplifier: the pass-through paths *)

Lemma round_points_close (coords : list Binary64.npoint) :
  forallb Binary64.is_finite_point coords = true ->
  exists ring,
    Binary64.round_points coords = Ok ring
    /\ Forall2 Binary64.within_half coords ring.
Proof.
  induction coords as [| [x y] coords IH]; intros Hfinite.
  - exists []. split; [reflexivity | constructor].
  - cbn [forallb] in Hfinite. apply andb_true_iff in Hfinite as [Hp Hrest].
    destruct (IH Hrest) as (qs & Hqs & Hclose).
    unfold Binary64.is_finite_point in Hp. cbn [fst snd] in Hp.
    apply andb_true_iff in Hp as [Hx Hy].
    destruct x as [x | |]; try discriminate.
    destruct y as [y | |]; try discriminate.
    exists ((round x, round y) :: qs). split.
    + cbn. rewrite Hqs. reflexivity.
    + constructor; [| exact Hclose].
      cbn [Binary64.within_half fst snd]. split; apply round_close.
Qed.

Lemma round_points_raise (coords : list Binary64.npoint) :
  forallb Binary64.is_finite_point coords = false ->
  exists e,
    Binary64.round_points coords = Raise e
    /\ (e = OverflowError \/ e = ValueError).
Proof.
  induction coords as [| [x y] coords IH]; intros Hfinite; [discriminate |].
  cbn [forallb] in Hfinite. cbn [Binary64.round_points].
  unfold Binary64.round_point. cbn [fst snd].
  destruct x as [x | sx |]; cbn [Binary64.round bind];
    [| exists OverflowError; auto | exists ValueError; auto].
  destruct y as [y | sy |]; cbn [Binary64.round bind];
    [| exists OverflowError; auto | exists ValueError; auto].
  cbn in Hfinite. destruct (IH Hfinite) as (e & He & Hexn).
  exists e. rewrite He. auto.
Qed.

Section PassThrough.

Context {N : Binary64.NumberEngine}.

(** X5.  On a list of fewer than 4 coordinates, or one for which a
    library call or the rounding of the library's shell raises, and
    whatever the tolerance: when every coordinate is finite the list comes
    back point for point, with the length of the input and each coordinate
    within one half of the input coordinate; when a coordinate is an
    infinity or NaN, [simplify_coords] raises [OverflowError] or
    [ValueError]. *)
Theorem pass_through_rounds_in_place (coords : list Binary64.npoint)
  (tolerance : Binary64.number) :
  (List.length coords < 4)%nat
  \/ (exists e, Binary64.simplify_attempt coords tolerance = Raise e) ->
  (forallb Binary64.is_finite_point coords = true ->
   exists ring,
     Binary64.simplify_coords coords tolerance = Ok ring
     /\ Forall2 Binary64.within_half coords ring)
  /\ (forallb Binary64.is_finite_point coords = false ->
      exists e,
        Binary64.simplify_coords coords tolerance = Raise e
        /\ (e = OverflowError \/ e = ValueError)).
Proof.
  intros Hpath. rewrite (simplify_coords_passes_through coords tolerance Hpath).
  split.
  - apply round_points_close.
  - apply round_points_raise.
Qed.

End PassThrough.

Lemma pass_through_rounds_in_place_witness :
  (exists ring,
     Binary64.simplify_coords (N := Binary64.widen (Mini.engine Mini.keep))
       [(Binary64.Finite (1 # 3), Binary64.Finite (5 # 2));
        (Binary64.Finite (7 # 4), Binary64.Finite (-1 # 2));
        (Binary64.Finite 10, Binary64.Finite 0)]
       (Binary64.Finite 5)
     = Ok ring
     /\ Forall2 Binary64.within_half
          [(Binary64.Finite (1 # 3), Binary64.Finite (5 # 2));
           (Binary64.Finite (7 # 4), Binary64.Finite (-1 # 2));
           (Binary64.Finite 10, Binary64.Finite 0)]
          ring)
  /\ exists e,
       Binary64.simplify_coords (N := Binary64.widen (Mini.engine Mini.keep))
         [(Binary64.Finite 0, Binary64.NaN);
          (Binary64.Infinity true, Binary64.Finite 0)]
         (Binary64.Finite 5)
       = Raise e
       /\ (e = OverflowError \/ e = ValueError).
Proof.
  split.
  - apply (pass_through_rounds_in_place
             (N := Binary64.widen (Mini.engine Mini.keep))).
    + left. cbn. lia.
    + reflexivity.
  - apply (pass_through_rounds_in_place
             (N := Binary64.widen (Mini.engine Mini.keep))).
    + left. cbn. lia.
    + reflexivity.
Defined.

(** ** AdjacencyDetector: the lists it builds *)

Section DetectorLists.

Context {E : GeometryEngine}.

Implicit Types (neighbors : Dict.t (K := str) (V := list str))
  (polygons : Dict.t (K := str) (V := geometry)).

Lemma append_at_list neighbors (k v : str) :
  In k (Dict.keys neighbors) ->
  exists neighbors',
    append_at neighbors k v = Ok neighbors'
    /\ Dict.keys neighbors' = Dict.keys neighbors
    /\ forall a,
         neighbors_of neighbors' a
         = if str_eq_dec a k then neighbors_of neighbors a ++ [v]
           else neighbors_of neighbors a.
Proof.
  intros Hk.
  destruct (proj1 (get_in_keys str_eq_dec neighbors k) Hk) as [l Hl].
  unfold append_at, Dict.lookup. rewrite Hl. cbn [bind].
  eexists. split; [reflexivity |]. split.
  - now apply keys_set_present.
  - intros a. rewrite neighbors_of_set.
    destruct (str_eq_dec a k) as [-> | Hne]; [| reflexivity].
    unfold neighbors_of. now rewrite Hl.
Qed.

Lemma check_pair_list neighbors (id1 id2 : str) (poly1 poly2 : geometry) :
  In id1 (Dict.keys neighbors) -> In id2 (Dict.keys neighbors) ->
  id1 <> id2 ->
  Dict.keys (check_pair neighbors id1 id2 poly1 poly2) = Dict.keys neighbors
  /\ forall a,
       neighbors_of (check_pair neighbors id1 id2 poly1 poly2) a
       = neighbors_of neighbors a
         ++ (if passes poly1 poly2
             then if str_eq_dec a id1 then [id2]
                  else if str_eq_dec a id2 then [id1] else []
             else []).
Proof.
  intros H1 H2 Hne. unfold check_pair, passes.
  destruct (shares_border poly1 poly2) as [[|] | e];
    try (split; [reflexivity | intros a; now rewrite app_nil_r]).
  destruct (append_at_list neighbors id1 id2 H1) as (n1 & -> & Hk1 & Hn1).
  destruct (append_at_list n1 id2 id1) as (n2 & -> & Hk2 & Hn2);
    [now rewrite Hk1 |].
  split; [now rewrite Hk2, Hk1 |].
  intros a. rewrite Hn2, Hn1.
  destruct (str_eq_dec a id1) as [Ha1 | Ha1];
    destruct (str_eq_dec a id2) as [Ha2 | Ha2];
    try congruence; try reflexivity.
  now rewrite app_nil_r.
Qed.

Lemma among_in (a : str) (l : list str) : among a l = true <-> In a l.
Proof.
  unfold among. rewrite existsb_exists. split.
  - intros (y & Hy & Heq). destruct (str_eq_dec a y); congruence.
  - intros Hin. exists a. split; [exact Hin |].
    now destruct (str_eq_dec a a).
Qed.

Lemma among_absent (a : str) (l : list str) : ~ In a l -> among a l = false.
Proof.
  intros Hnotin. destruct (among a l) eqn:H; [| reflexivity].
  apply among_in in H. contradiction.
Qed.

Lemma inner_loop_list polygons (id1 : str) (poly1 : geometry) :
  Dict.get str_eq_dec polygons id1 = Some poly1 ->
  forall rest neighbors,
    (forall x, In x rest -> In x (Dict.keys polygons)) ->
    In id1 (Dict.keys neighbors) ->
    (forall x, In x rest -> In x (Dict.keys neighbors)) ->
    ~ In id1 rest -> NoDup rest ->
    exists neighbors',
      for_each rest
        (fun id2 neighbors =>
           poly1 <- Dict.lookup str_eq_dec polygons id1 ;;
           poly2 <- Dict.lookup str_eq_dec polygons id2 ;;
           Ok (check_pair neighbors id1 id2 poly1 poly2))
        neighbors = Ok neighbors'
      /\ Dict.keys neighbors' = Dict.keys neighbors
      /\ forall a,
           neighbors_of neighbors' a
           = neighbors_of neighbors a
             ++ (if str_eq_dec a id1 then filter (adjacent polygons id1) rest
                 else if among a rest && adjacent polygons id1 a
                      then [id1] else []).
Proof.
  intros Hpoly1. induction rest as [| id2 rest IH];
    intros neighbors Hpolys Hid1 Hrest Hfresh Hnodup.
  - exists neighbors. cbn. split; [reflexivity |]. split; [reflexivity |].
    intros a. destruct (str_eq_dec a id1); now rewrite app_nil_r.
  - cbn [for_each]. unfold Dict.lookup at 1 2. rewrite Hpoly1. cbn [bind].
    destruct (proj1 (get_in_keys str_eq_dec polygons id2)
                (Hpolys id2 (or_introl eq_refl))) as [poly2 Hpoly2].
    rewrite Hpoly2. cbn [bind].
    assert (Hne : id1 <> id2) by (intros ->; apply Hfresh; now left).
    inversion_clear Hnodup as [| ? ? Hid2 Hnodup'].
    destruct (check_pair_list neighbors id1 id2 poly1 poly2 Hid1
                (Hrest id2 (or_introl eq_refl)) Hne) as [Hkeys Hpair].
    destruct (IH (check_pair neighbors id1 id2 poly1 poly2))
      as (neighbors' & Hrun & Hkeys' & Hspec).
    + intros x Hx. apply Hpolys. now right.
    + now rewrite Hkeys.
    + intros x Hx. rewrite Hkeys. apply Hrest. now right.
    + intros Hin. apply Hfresh. now right.
    + exact Hnodup'.
    + exists neighbors'. split; [exact Hrun |].
      split; [now rewrite Hkeys', Hkeys |].
      intros a. rewrite Hspec, Hpair, <- app_assoc. f_equal.
      assert (Hadj : adjacent polygons id1 id2 = passes poly1 poly2).
      { unfold adjacent, passes. now rewrite Hpoly1, Hpoly2. }
      destruct (str_eq_dec a id1) as [-> | Ha1].
      * cbn [filter]. rewrite Hadj. now destruct (passes poly1 poly2).
      * unfold among at 2. cbn [existsb]. fold (among a rest).
        destruct (str_eq_dec a id2) as [-> | Ha2].
        -- rewrite (among_absent id2 rest Hid2). cbn [orb andb].
           rewrite Hadj. now destruct (passes poly1 poly2).
        -- cbn [orb]. now destruct (passes poly1 poly2).
Qed.

Lemma outer_loop_list polygons (ids : list str) :
  (forall x, In x ids -> In x (Dict.keys polygons)) ->
  NoDup ids ->
  forall rest pre neighbors,
    ids = pre ++ rest ->
    (forall x, In x ids -> In x (Dict.keys neighbors)) ->
    exists neighbors',
      for_each (combine (seq (List.length pre) (List.length rest)) rest)
        (fun i_id1 neighbors =>
           for_each (skipn (fst i_id1 + 1) ids)
             (fun id2 neighbors =>
                poly1 <- Dict.lookup str_eq_dec polygons (snd i_id1) ;;
                poly2 <- Dict.lookup str_eq_dec polygons id2 ;;
                Ok (check_pair neighbors (snd i_id1) id2 poly1 poly2))
             neighbors)
        neighbors = Ok neighbors'
      /\ Dict.keys neighbors' = Dict.keys neighbors
      /\ forall a,
           neighbors_of neighbors' a
           = neighbors_of neighbors a ++ partners polygons rest a.
Proof.
  intros Hpolys Hnodup. induction rest as [| id1 rest IH];
    intros pre neighbors Hids Hkeys.
  - exists neighbors. cbn. split; [reflexivity |]. split; [reflexivity |].
    intros a. now rewrite app_nil_r.
  - cbn [List.length seq combine for_each fst snd].
    replace (skipn (List.length pre + 1) ids) with rest
      by (rewrite Hids; symmetry; apply skipn_past).
    assert (Hin1 : In id1 ids).
    { rewrite Hids. apply in_or_app. right. now left. }
    assert (Hrest : forall x, In x rest -> In x ids).
    { intros x Hx. rewrite Hids. apply in_or_app. right. now right. }
    assert (Htail : NoDup (id1 :: rest)).
    { rewrite Hids in Hnodup. now apply NoDup_app_remove_l in Hnodup. }
    inversion_clear Htail as [| ? ? Hfresh Hnodup'].
    destruct (proj1 (get_in_keys str_eq_dec polygons id1) (Hpolys id1 Hin1))
      as [poly1 Hpoly1].
    destruct (inner_loop_list polygons id1 poly1 Hpoly1 rest neighbors)
      as (n1 & -> & Hk1 & Hn1); auto.
    cbn [bind].
    destruct (IH (pre ++ [id1]) n1) as (n2 & Hrun & Hk2 & Hn2).
    + rewrite Hids, <- app_assoc. reflexivity.
    + intros x Hx. rewrite Hk1. now apply Hkeys.
    + rewrite length_app, Nat.add_1_r in Hrun. cbn [List.length] in Hrun.
      exists n2. split; [exact Hrun |]. split; [now rewrite Hk2, Hk1 |].
      intros a. rewrite Hn2, Hn1, <- app_assoc. reflexivity.
Qed.

Lemma partners_members polygons (ids : list str) (a b : str) :
  NoDup ids -> In b (partners polygons ids a) ->
  In a ids /\ In b ids /\ a <> b.
Proof.
  induction ids as [| id1 rest IH]; intros Hnodup Hb; [contradiction |].
  inversion_clear Hnodup as [| ? ? Hfresh Hnodup'].
  cbn [partners] in Hb. apply in_app_or in Hb as [Hb | Hb].
  - destruct (str_eq_dec a id1) as [-> | Hne].
    + apply filter_In in Hb as [Hb _].
      repeat split; [now left | now right | congruence].
    + fold (among a rest) in Hb.
      destruct (among a rest) eqn:Hamong; [| contradiction].
      apply among_in in Hamong.
      destruct (adjacent polygons id1 a); [| contradiction].
      destruct Hb as [<- | []].
      repeat split; [now right | now left | congruence].
  - destruct (IH Hnodup' Hb) as (Ha & Hb' & Hne).
    repeat split; [now right | now right | exact Hne].
Qed.

Lemma partners_absent polygons (ids : list str) (a : str) :
  ~ In a ids -> partners polygons ids a = [].
Proof.
  induction ids as [| id1 rest IH]; intros Hnotin; [reflexivity |].
  cbn [partners]. fold (among a rest).
  destruct (str_eq_dec a id1) as [-> | Hne]; [exfalso; apply Hnotin; now left |].
  rewrite among_absent by (intros H; apply Hnotin; now right).
  cbn [andb app]. apply IH. intros H. apply Hnotin. now right.
Qed.

Lemma partners_nodup polygons (ids : list str) (a : str) :
  NoDup ids -> NoDup (partners polygons ids a).
Proof.
  induction ids as [| id1 rest IH]; intros Hnodup; [constructor |].
  pose proof Hnodup as Hall.
  inversion_clear Hnodup as [| ? ? Hfresh Hnodup'].
  cbn [partners]. fold (among a rest).
  destruct (str_eq_dec a id1) as [-> | Hne].
  - rewrite (partners_absent polygons rest id1 Hfresh), app_nil_r.
    now apply NoDup_filter.
  - destruct (among a rest && adjacent polygons id1 a); cbn [app].
    + constructor; [| now apply IH].
      intros Hin. apply (partners_members polygons rest a id1 Hnodup') in Hin.
      tauto.
    + now apply IH.
Qed.

End DetectorLists.

Section DetectorGraph.

Context {E : GeometryEngine}.

Lemma empty_neighbors_keys_from (provinces : list Province.t) :
  forall neighbors : Dict.t (K := str) (V := list str),
    NoDup (Dict.keys neighbors) ->
    NoDup (Dict.keys
             (fold_left (fun d p => Dict.set str_eq_dec d (Province.id p) [])
                provinces neighbors))
    /\ forall k,
         In k (Dict.keys
                 (fold_left (fun d p => Dict.set str_eq_dec d (Province.id p) [])
                    provinces neighbors))
         <-> In k (Dict.keys neighbors)
             \/ exists p, In p provinces /\ Province.id p = k.
Proof.
  induction provinces as [| p provinces IH]; intros neighbors Hnodup.
  - cbn. split; [exact Hnodup |]. intros k. split; [auto |].
    intros [H | (q & [] & _)]. exact H.
  - cbn [fold_left].
    destruct (IH (Dict.set str_eq_dec neighbors (Province.id p) []))
      as [Hnd Hkeys]; [now apply nodup_keys_set |].
    split; [exact Hnd |].
    intros k. rewrite Hkeys, in_keys_set. split.
    + intros [[-> | H] | (q & Hq & Hid)].
      * right. exists p. split; [now left | reflexivity].
      * now left.
      * right. exists q. split; [now right | exact Hid].
    + intros [H | (q & [<- | Hq] & Hid)].
      * left. now right.
      * left. now left.
      * right. now exists q.
Qed.

Lemma build_polygons_built_from (provinces : list Province.t) :
  forall (polygons : Dict.t (K := str) (V := geometry)) k,
    In k (Dict.keys
            (fold_left
               (fun polygons province =>
                  match build_polygon (Province.coordinates province) with
                  | Ok poly =>
                      Dict.set str_eq_dec polygons (Province.id province) poly
                  | Raise _ => polygons
                  end)
               provinces polygons)) ->
    In k (Dict.keys polygons)
    \/ exists p poly,
         In p provinces /\ Province.id p = k
         /\ build_polygon (Province.coordinates p) = Ok poly.
Proof.
  induction provinces as [| p provinces IH]; intros polygons k Hk.
  - now left.
  - cbn [fold_left] in Hk.
    destruct (build_polygon (Province.coordinates p)) as [poly | e] eqn:Hbuild.
    + destruct (IH _ k Hk) as [Hset | (q & g & Hq & Hid & Hg)].
      * apply in_keys_set in Hset as [-> | Hold]; [| now left].
        right. exists p, poly. split; [now left | auto].
      * right. exists q, g. split; [now right | auto].
    + destruct (IH _ k Hk) as [Hold | (q & g & Hq & Hid & Hg)]; [now left |].
      right. exists q, g. split; [now right | auto].
Qed.

Lemma detect_neighbors_lists (provinces : list Province.t) :
  exists neighbors,
    detect_neighbors provinces = Ok neighbors
    /\ Dict.keys neighbors = Dict.keys (empty_neighbors provinces)
    /\ forall a,
         neighbors_of neighbors a
         = partners (build_polygons provinces)
             (Dict.keys (build_polygons provinces)) a.
Proof.
  unfold detect_neighbors, check_adjacency, enumerate.
  destruct (outer_loop_list (build_polygons provinces)
              (Dict.keys (build_polygons provinces)) (fun x H => H)
              (build_polygons_nodup provinces)
              (Dict.keys (build_polygons provinces)) []
              (empty_neighbors provinces) eq_refl)
    as (neighbors & Hrun & Hkeys & Hspec).
  - intros x Hx. apply build_polygons_keys in Hx.
    refine (proj2 (empty_neighbors_from provinces [] _) x (or_intror Hx)).
    intros k l H. discriminate H.
  - exists neighbors. split; [exact Hrun |]. split; [exact Hkeys |].
    intros a. now rewrite Hspec, empty_neighbors_empty.
Qed.

(** X6.  The graph returned by [detect_neighbors] has exactly one entry
    for every identifier carried by a province, whether or not a polygon
    could be built for it, and no other entry. *)
Theorem graph_has_every_province (provinces : list Province.t) :
  exists neighbors,
    detect_neighbors provinces = Ok neighbors
    /\ NoDup (Dict.keys neighbors)
    /\ forall k,
         In k (Dict.keys neighbors)
         <-> exists p, In p provinces /\ Province.id p = k.
Proof.
  destruct (detect_neighbors_lists provinces) as (neighbors & Hrun & Hkeys & _).
  exists neighbors. split; [exact Hrun |]. rewrite Hkeys.
  destruct (empty_neighbors_keys_from provinces [] (NoDup_nil _))
    as [Hnodup Hiff].
  split; [exact Hnodup |].
  intros k. unfold empty_neighbors. rewrite Hiff. cbn. tauto.
Qed.

(** X7.  Only provinces whose polygon was built take part in the graph:
    when [b] is listed as a neighbor of [a], both identifiers belong to
    provinces for which the polygon construction succeeded.  An identifier
    none of whose provinces has a polygon therefore has an empty list and
    is in no list. *)
Theorem neighbors_have_polygons (provinces : list Province.t) :
  exists neighbors,
    detect_neighbors provinces = Ok neighbors
    /\ (forall a b,
          In b (neighbors_of neighbors a) ->
          (exists p poly,
             In p provinces /\ Province.id p = a
             /\ build_polygon (Province.coordinates p) = Ok poly)
          /\ (exists q poly,
                In q provinces /\ Province.id q = b
                /\ build_polygon (Province.coordinates q) = Ok poly))
    /\ forall a,
         (forall p,
            In p provinces -> Province.id p = a ->
            exists e, build_polygon (Province.coordinates p) = Raise e) ->
         neighbors_of neighbors a = []
         /\ forall b, ~ In a (neighbors_of neighbors b).
Proof.
  destruct (detect_neighbors_lists provinces) as (neighbors & Hrun & _ & Hspec).
  exists neighbors. split; [exact Hrun |].
  assert (Hbuilt : forall a b,
             In b (neighbors_of neighbors a) ->
             (exists p poly,
                In p provinces /\ Province.id p = a
                /\ build_polygon (Province.coordinates p) = Ok poly)
             /\ (exists q poly,
                   In q provinces /\ Province.id q = b
                   /\ build_polygon (Province.coordinates q) = Ok poly)).
  { intros a b Hb. rewrite Hspec in Hb.
    apply partners_members in Hb as (Ha & Hb & _);
      [| apply build_polygons_nodup].
    split.
    - destruct (build_polygons_built_from provinces [] a Ha) as [[] | H].
      exact H.
    - destruct (build_polygons_built_from provinces [] b Hb) as [[] | H].
      exact H. }
  split; [exact Hbuilt |].
  intros a Hnone. split.
  - destruct (neighbors_of neighbors a) as [| b rest] eqn:Hlist;
      [reflexivity |].
    destruct (Hbuilt a b) as [(p & poly & Hin & Hid & Hpoly) _].
    { rewrite Hlist. now left. }
    destruct (Hnone p Hin Hid) as [e He]. congruence.
  - intros b Hb.
    destruct (Hbuilt b a Hb) as [_ (q & poly & Hin & Hid & Hpoly)].
    destruct (Hnone q Hin Hid) as [e He]. congruence.
Qed.

(** X8.  No neighbor list holds an identifier twice: every pair of
    polygons is tested once. *)
Theorem neighbor_lists_without_repeats (provinces : list Province.t) :
  exists neighbors,
    detect_neighbors provinces = Ok neighbors
    /\ forall a, NoDup (neighbors_of neighbors a).
Proof.
  destruct (detect_neighbors_lists provinces) as (neighbors & Hrun & _ & Hspec).
  exists neighbors. split; [exact Hrun |].
  intros a. rewrite Hspec. apply partners_nodup, build_polygons_nodup.
Qed.

End DetectorGraph.

Lemma neighbors_have_polygons_witness :
  exists neighbors,
    detect_neighbors (E := Mini.engine Mini.keep)
      [Province.mk [65] "West" "p0" [(0, 0); (10, 0); (10, 10); (0, 10)]
         (5, 5) false;
       Province.mk [66] "Line" "p1" [(10, 0); (20, 0)] (15, 0) false;
       Province.mk [67] "East" "p2" [(10, 0); (20, 0); (20, 10); (10, 10)]
         (15, 5) false]
    = Ok neighbors
    /\ neighbors = [([65], [[67]]); ([66], []); ([67], [[65]])]
    /\ neighbors_of neighbors [66] = []
    /\ forall b, ~ In [66] (neighbors_of neighbors b).
Proof.
  destruct (neighbors_have_polygons (E := Mini.engine Mini.keep)
              [Province.mk [65] "West" "p0" [(0, 0); (10, 0); (10, 10); (0, 10)]
                 (5, 5) false;
               Province.mk [66] "Line" "p1" [(10, 0); (20, 0)] (15, 0) false;
               Province.mk [67] "East" "p2"
                 [(10, 0); (20, 0); (20, 10); (10, 10)] (15, 5) false])
    as (neighbors & Hrun & _ & Hnone).
  exists neighbors. split; [exact Hrun |]. split.
  - vm_compute in Hrun. now injection Hrun as <-.
  - apply Hnone. intros p [<- | [<- | [<- | []]]] Hid;
      try discriminate Hid.
    eexists. vm_compute. reflexivity.
Defined.

(** ** Sorting identifiers *)

Lemma str_leb_total (a : str) :
  forall b, Text.str_leb a b = false -> Text.str_leb b a = true.
Proof.
  induction a as [| x a IH]; intros [| y b]; cbn; try congruence.
  destruct (x <? y) eqn:Hxy; [discriminate |].
  destruct (y <? x) eqn:Hyx; [reflexivity |].
  apply IH.
Qed.

Lemma insert_sorted_permutation (x : str) (l : list str) :
  Permutation (Text.insert_sorted x l) (x :: l).
Proof.
  induction l as [| y l IH]; cbn; [apply Permutation_refl |].
  destruct (Text.str_leb x y); [apply Permutation_refl |].
  rewrite IH. apply perm_swap.
Qed.

Lemma sorted_permutation (l : list str) : Permutation (Text.sorted l) l.
Proof.
  induction l as [| x l IH]; cbn; [constructor |].
  rewrite insert_sorted_permutation. now constructor.
Qed.

Lemma insert_sorted_ascending (x : str) (l : list str) :
  Sorted str_le l -> Sorted str_le (Text.insert_sorted x l).
Proof.
  induction l as [| y l IH]; intros Hsorted; cbn.
  - repeat constructor.
  - destruct (Text.str_leb x y) eqn:Hxy.
    + constructor; [exact Hsorted | now constructor].
    + inversion_clear Hsorted as [| ? ? Htail Hhead].
      constructor; [now apply IH |].
      destruct l as [| z l]; cbn.
      * constructor. now apply str_leb_total.
      * destruct (Text.str_leb x z); constructor.
        -- now apply str_leb_total.
        -- now inversion_clear Hhead.
Qed.

Lemma sorted_ascending (l : list str) : Sorted str_le (Text.sorted l).
Proof.
  induction l as [| x l IH]; cbn; [constructor |].
  now apply insert_sorted_ascending.
Qed.

Lemma str_le_trans (a : str) :
  forall b c, str_le a b -> str_le b c -> str_le a c.
Proof.
  unfold str_le.
  induction a as [| x a IH]; intros [| y b] [| z c]; cbn; try congruence.
  destruct (x <? y) eqn:Hxy; destruct (y <? x) eqn:Hyx;
    destruct (y <? z) eqn:Hyz; destruct (z <? y) eqn:Hzy;
    destruct (x <? z) eqn:Hxz; destruct (z <? x) eqn:Hzx;
    try congruence;
    rewrite ?Z.ltb_lt, ?Z.ltb_ge in *; try lia.
  apply IH.
Qed.

Lemma str_le_antisym (a : str) :
  forall b, str_le a b -> str_le b a -> a = b.
Proof.
  unfold str_le.
  induction a as [| x a IH]; intros [| y b]; cbn; try congruence.
  destruct (x <? y) eqn:Hxy; destruct (y <? x) eqn:Hyx; try congruence;
    rewrite ?Z.ltb_lt, ?Z.ltb_ge in *; try lia.
  intros Hab Hba. f_equal; [lia | now apply IH].
Qed.

(** The ascending arrangement of a list is unique, so [Text.sorted] is
    what any sorting procedure returns. *)
Lemma ascending_unique (l1 : list str) :
  forall l2,
    Sorted str_le l1 -> Sorted str_le l2 -> Permutation l1 l2 -> l1 = l2.
Proof.
  assert (Htrans : Relations_1.Transitive str_le).
  { intros a b c. apply str_le_trans. }
  induction l1 as [| x l1 IH]; intros l2 H1 H2 Hperm.
  - apply Permutation_nil in Hperm. now subst.
  - destruct l2 as [| y l2];
      [apply Permutation_sym, Permutation_nil in Hperm; discriminate |].
    apply Sorted_StronglySorted in H1; [| exact Htrans].
    apply Sorted_StronglySorted in H2; [| exact Htrans].
    inversion_clear H1 as [| ? ? Hs1 Hall1].
    inversion_clear H2 as [| ? ? Hs2 Hall2].
    rewrite Forall_forall in Hall1, Hall2.
    assert (Hxy : x = y).
    { assert (Hy : In y (x :: l1))
        by (apply (Permutation_in _ (Permutation_sym Hperm)); now left).
      assert (Hx : In x (y :: l2))
        by (apply (Permutation_in _ Hperm); now left).
      destruct Hy as [Hy | Hy]; [exact Hy |].
      destruct Hx as [Hx | Hx]; [now symmetry |].
      apply str_le_antisym; [now apply Hall1 | now apply Hall2]. }
    subst y. f_equal.
    apply IH.
    + now apply StronglySorted_Sorted.
    + now apply StronglySorted_Sorted.
    + now apply Permutation_cons_inv in Hperm.
Qed.

(** ** create_template_json *)

Section TemplateClaims.

Context {E : GeometryEngine}.

Variable str_title : string -> string.

Lemma detected_graph_symmetric (provinces : list Province.t)
  (neighbors : Dict.t (K := str) (V := list str)) :
  detect_neighbors provinces = Ok neighbors ->
  forall a b,
    In b (neighbors_of neighbors a) <-> In a (neighbors_of neighbors b).
Proof.
  intros Hrun a b.
  destruct (detect_neighbors_spec provinces) as (neighbors' & Hrun' & Hspec).
  assert (neighbors' = neighbors) as -> by congruence.
  rewrite !Hspec. unfold registered.
  split; intros (x & y & px & py & Hb & Hpx & Hpy & Hs & Hab);
    exists x, y, px, py; tauto.
Qed.

(** X9.  [create_template_json] returns.  The template lists the provinces
    in their order, and its count is their number.  Each neighbor list of
    the template is in ascending order, holds no identifier twice and not
    the province's own; and one province lists another exactly when the
    other lists it. *)
Theorem template_graph (meta : metadata) (provinces : list Province.t)
  (output_name : string) :
  exists t,
    create_template_json str_title meta provinces output_name = Ok t
    /\ Template.provinceCount t = len (Template.provinces t)
    /\ map TemplateProvince.id (Template.provinces t)
       = map Province.id provinces
    /\ Forall (fun tp =>
                 Sorted str_le (TemplateProvince.neighbors tp)
                 /\ NoDup (TemplateProvince.neighbors tp)
                 /\ ~ In (TemplateProvince.id tp) (TemplateProvince.neighbors tp))
              (Template.provinces t)
    /\ forall tp tq,
         In tp (Template.provinces t) -> In tq (Template.provinces t) ->
         (In (TemplateProvince.id tq) (TemplateProvince.neighbors tp)
          <-> In (TemplateProvince.id tp) (TemplateProvince.neighbors tq)).
Proof.
  destruct (detect_neighbors_lists provinces)
    as (neighbors & Hrun & _ & Hlists).
  unfold create_template_json. rewrite Hrun. cbn [bind].
  eexists. split; [reflexivity |]. cbn [Template.provinceCount Template.provinces].
  split; [unfold len; now rewrite length_map |].
  split; [rewrite map_map; reflexivity |].
  split.
  - apply Forall_forall. intros tp Htp.
    apply in_map_iff in Htp as (p & <- & _).
    unfold template_province.
    cbn [TemplateProvince.neighbors TemplateProvince.id].
    split; [apply sorted_ascending |]. split.
    + apply (Permutation_NoDup (l := neighbors_of neighbors (Province.id p)));
        [symmetry; apply sorted_permutation |].
      rewrite Hlists. apply partners_nodup, build_polygons_nodup.
    + intros Hself.
      apply (Permutation_in _ (sorted_permutation _)) in Hself.
      rewrite Hlists in Hself.
      apply partners_members in Hself as (_ & _ & Hne);
        [congruence | apply build_polygons_nodup].
  - intros tp tq Htp Htq.
    apply in_map_iff in Htp as (p & <- & _).
    apply in_map_iff in Htq as (q & <- & _).
    unfold template_province.
    cbn [TemplateProvince.neighbors TemplateProvince.id].
    split; intros Hin;
      apply (Permutation_in _ (sorted_permutation _)) in Hin;
      apply (Permutation_in _ (Permutation_sym (sorted_permutation _)));
      now apply (detected_graph_symmetric provinces neighbors Hrun).
Qed.

End TemplateClaims.

Lemma template_graph_witness :
  exists t,
    create_template_json (E := Mini.engine Mini.keep) (fun s => s)
      (mkMetadata "0 0 20 10" 2)
      [Province.mk [66] "East" "p1" [(10, 0); (20, 0); (20, 10); (10, 10)]
         (15, 5) false;
       Province.mk [65] "West" "p0" [(0, 0); (10, 0); (10, 10); (0, 10)]
         (5, 5) false]
      "map"
    = Ok t
    /\ map TemplateProvince.neighbors (Template.provinces t) = [[[65]]; [[66]]].
Proof.
  destruct (template_graph (E := Mini.engine Mini.keep) (fun s => s)
              (mkMetadata "0 0 20 10" 2)
              [Province.mk [66] "East" "p1"
                 [(10, 0); (20, 0); (20, 10); (10, 10)] (15, 5) false;
               Province.mk [65] "West" "p0"
                 [(0, 0); (10, 0); (10, 10); (0, 10)] (5, 5) false]
              "map") as (t & Hrun & _).
  exists t. split; [exact Hrun |].
  vm_compute in Hrun. now injection Hrun as <-.
Defined.

(** ** mark_coastal_provinces *)

Lemma contains_empty (s : list ascii) : Text.contains s [] = true.
Proof. destruct s; reflexivity. Qed.

Lemma title_matches_with_coastal (keys : list (list ascii)) (p : Province.t)
  (flag : bool) :
  title_matches keys (with_coastal p flag) = title_matches keys p.
Proof. reflexivity. Qed.

Lemma title_matches_app (keys1 keys2 : list (list ascii)) (p : Province.t) :
  title_matches (keys1 ++ keys2) p
  = title_matches keys1 p || title_matches keys2 p.
Proof. unfold title_matches. apply existsb_app. Qed.

(** X10.  A coastal name that is empty once lowered and stripped (an empty
    or blank entry of the list) matches every title: every province comes
    back marked coastal. *)
Theorem blank_name_marks_every_province (provinces : list Province.t)
  (coastal_names : list string) (name : string) :
  In name coastal_names ->
  coastal_key name = [] ->
  Forall (fun p => Province.isCoastal p = true)
    (mark_coastal_provinces provinces coastal_names).
Proof.
  intros Hin Hblank. apply Forall_forall. intros p' Hp'.
  unfold mark_coastal_provinces in Hp'.
  apply in_map_iff in Hp' as (p & <- & _).
  assert (Hmatch : title_matches (map coastal_key coastal_names) p = true).
  { unfold title_matches. apply existsb_exists.
    exists []. split; [| apply contains_empty].
    rewrite <- Hblank. now apply in_map. }
  now rewrite Hmatch.
Qed.

Lemma blank_name_marks_every_province_witness :
  Forall (fun p => Province.isCoastal p = true)
    (mark_coastal_provinces
       [Province.mk [65] "Inland" "p0" [] (0, 0) false;
        Province.mk [66] "Desert" "p1" [] (0, 0) false]
       ["Basra"; " "]%string).
Proof.
  apply (blank_name_marks_every_province _ _ " "%string).
  - right. now left.
  - vm_compute. reflexivity.
Defined.

(** X11.  [mark_coastal_provinces] only ever sets the flag: the provinces
    come back in the same number and order, with their identifier, title,
    original identifier, coordinates and centroid unchanged, and a province
    that was coastal stays coastal. *)
Theorem mark_coastal_only_sets_flag (provinces : list Province.t)
  (coastal_names : list string) :
  Forall2
    (fun p p' =>
       Province.id p' = Province.id p
       /\ Province.original_title p' = Province.original_title p
       /\ Province.original_id p' = Province.original_id p
       /\ Province.coordinates p' = Province.coordinates p
       /\ Province.centroid p' = Province.centroid p
       /\ (Province.isCoastal p = true -> Province.isCoastal p' = true))
    provinces (mark_coastal_provinces provinces coastal_names).
Proof.
  unfold mark_coastal_provinces.
  induction provinces as [| p provinces IH]; constructor; [| exact IH].
  destruct (title_matches (map coastal_key coastal_names) p); cbn; tauto.
Qed.

Lemma mark_coastal_only_sets_flag_witness :
  Forall2
    (fun p p' =>
       Province.id p' = Province.id p
       /\ Province.original_title p' = Province.original_title p
       /\ Province.original_id p' = Province.original_id p
       /\ Province.coordinates p' = Province.coordinates p
       /\ Province.centroid p' = Province.centroid p
       /\ (Province.isCoastal p = true -> Province.isCoastal p' = true))
    [Province.mk [65] "Al-Basrah" "p0" [] (0, 0) false;
     Province.mk [66] "Maysan" "p1" [] (0, 0) true]
    (mark_coastal_provinces
       [Province.mk [65] "Al-Basrah" "p0" [] (0, 0) false;
        Province.mk [66] "Maysan" "p1" [] (0, 0) true]
       ["basra"]%string).
Proof.
  exact (mark_coastal_only_sets_flag
           [Province.mk [65] "Al-Basrah" "p0" [] (0, 0) false;
            Province.mk [66] "Maysan" "p1" [] (0, 0) true]
           ["basra"]%string).
Defined.

(** X12.  Marking with one list of names and then with another is marking
    once with the two lists together; so marking twice with the same names
    changes nothing more. *)
Theorem mark_coastal_composes (provinces : list Province.t)
  (names1 names2 : list string) :
  mark_coastal_provinces (mark_coastal_provinces provinces names1) names2
  = mark_coastal_provinces provinces (names1 ++ names2).
Proof.
  unfold mark_coastal_provinces. rewrite map_map. apply map_ext.
  intros p. cbv beta. rewrite map_app, title_matches_app.
  destruct (title_matches (map coastal_key names1) p) eqn:H1; cbn [orb].
  - rewrite title_matches_with_coastal.
    now destruct (title_matches (map coastal_key names2) p).
  - reflexivity.
Qed.

(** ** assign_province_ids *)

Lemma assign_ids_from_fields (provinces : list Extracted.t) :
  forall idx ps,
    assign_ids_from idx provinces = Ok ps ->
    Forall2
      (fun p p' =>
         Province.original_title p' = Extracted.original_title p
         /\ Province.original_id p' = Extracted.original_id p
         /\ Province.coordinates p' = Extracted.coordinates p
         /\ Province.centroid p' = Extracted.centroid p
         /\ Province.isCoastal p' = Extracted.isCoastal p)
      provinces ps.
Proof.
  induction provinces as [| p rest IH]; intros idx ps Hrun.
  - cbn in Hrun. injection Hrun as <-. constructor.
  - cbn [assign_ids_from] in Hrun.
    destruct (chr (65 + Z.of_nat idx)) as [i | e]; [| discriminate].
    cbn [bind] in Hrun.
    destruct (assign_ids_from (S idx) rest) as [rest' | e] eqn:Hrest;
      [| discriminate].
    cbn [bind] in Hrun. injection Hrun as <-.
    constructor; [cbn; tauto | now apply (IH (S idx))].
Qed.

(** X13.  Identifier assignment touches nothing but the identifier: the
    provinces come back in the same number and order, each with its title,
    original identifier, coordinates, centroid and coastal flag. *)
Theorem assign_province_ids_keeps_fields (provinces : list Extracted.t)
  (ps : list Province.t) :
  assign_province_ids provinces = Ok ps ->
  Forall2
    (fun p p' =>
       Province.original_title p' = Extracted.original_title p
       /\ Province.original_id p' = Extracted.original_id p
       /\ Province.coordinates p' = Extracted.coordinates p
       /\ Province.centroid p' = Extracted.centroid p
       /\ Province.isCoastal p' = Extracted.isCoastal p)
    provinces ps.
Proof. apply assign_ids_from_fields. Qed.

Lemma assign_province_ids_keeps_fields_witness :
  Forall2
    (fun p p' =>
       Province.original_title p' = Extracted.original_title p
       /\ Province.original_id p' = Extracted.original_id p
       /\ Province.coordinates p' = Extracted.coordinates p
       /\ Province.centroid p' = Extracted.centroid p
       /\ Province.isCoastal p' = Extracted.isCoastal p)
    [Extracted.mk "Basra" "p0" [(0, 0); (1, 0); (0, 1)] (0, 0) true]
    [Province.mk [65] "Basra" "p0" [(0, 0); (1, 0); (0, 1)] (0, 0) true].
Proof.
  apply (assign_province_ids_keeps_fields
           [Extracted.mk "Basra" "p0" [(0, 0); (1, 0); (0, 1)] (0, 0) true]).
  vm_compute. reflexivity.
Defined.

(** ** The loop of extract_provinces_from_svg *)

Section ExtractionClaims.

Context {E : GeometryEngine} {contract : SimplifierContract E}.

Lemma appended_province_ring (title province_id : string)
  (path_data : option string) (tolerance : float) (p : Extracted.t) :
  extract_province title province_id path_data tolerance = Appended p ->
  (3 <= List.length (Extracted.coordinates p))%nat
  /\ Extracted.isCoastal p = false.
Proof.
  unfold extract_province.
  destruct path_data as [[| c d] |]; try discriminate.
  destruct (parse_svg_path_to_coords (String c d)) as [raw | e];
    [| discriminate].
  destruct (List.length raw <? 3)%nat eqn:Hlen; [discriminate |].
  apply Nat.ltb_ge in Hlen.
  destruct (calculate_centroid (simplify_coords raw tolerance)) as [ctr | e];
    [| discriminate].
  intros H. injection H as <-. cbn.
  split; [now apply simplify_coords_floor | reflexivity].
Qed.

Lemma extract_from_invariant (paths : list path_element) (tolerance : float) :
  forall idx,
    (List.length (extract_from idx paths tolerance) <= List.length paths)%nat
    /\ Forall (fun p => (3 <= List.length (Extracted.coordinates p))%nat
                        /\ Extracted.isCoastal p = false)
         (extract_from idx paths tolerance).
Proof.
  induction paths as [| path rest IH]; intros idx; cbn [extract_from].
  - split; [cbn; lia | constructor].
  - destruct (IH (S idx)) as [Hlen Hall].
    match goal with
    | |- context [extract_province ?t ?i ?d ?tol] =>
        destruct (extract_province t i d tol) as [p | | | e] eqn:Hrun;
        try (split; [cbn [List.length]; lia | exact Hall]);
        destruct (appended_province_ring t i d tol p Hrun) as (Hthree & Hflag)
    end.
    split; [cbn [List.length]; lia |].
    constructor; [split; assumption | exact Hall].
Qed.

(** X15.  Under the contract of the library's simplifier, the provinces
    that [extract_provinces_from_svg] returns are at most as many as the
    path elements, each has at least 3 coordinates and none is coastal;
    the count in the metadata is their number. *)
Theorem extracted_provinces_are_rings (view_box : string)
  (paths : list path_element) (tolerance : float) :
  let result := extract_provinces view_box paths tolerance in
  original_province_count (fst result) = len (snd result)
  /\ (List.length (snd result) <= List.length paths)%nat
  /\ Forall (fun p => (3 <= List.length (Extracted.coordinates p))%nat
                      /\ Extracted.isCoastal p = false)
       (snd result).
Proof.
  cbn. split; [reflexivity |]. apply extract_from_invariant.
Qed.

End ExtractionClaims.

Lemma extracted_provinces_are_rings_witness :
  let result :=
    extract_provinces (E := Mini.engine Mini.keep) "0 0 20 20"
      [mkPath (Some "West"%string) None
         (Some "M 0 0 L 10 0 L 10 10 L 0 10 Z"%string);
       mkPath None None (Some "M 5"%string);
       mkPath None None None] 5%Q in
  original_province_count (fst result) = len (snd result)
  /\ (List.length (snd result) <= 3)%nat
  /\ Forall (fun p => (3 <= List.length (Extracted.coordinates p))%nat
                      /\ Extracted.isCoastal p = false)
       (snd result).
Proof.
  exact (extracted_provinces_are_rings (contract := keep_contract) "0 0 20 20"
           [mkPath (Some "West"%string) None
              (Some "M 0 0 L 10 0 L 10 10 L 0 10 Z"%string);
            mkPath None None (Some "M 5"%string);
            mkPath None None None] 5%Q).
Defined.

(** X16.  With more than 1,114,047 provinces the code 65 + idx leaves the
    range of [chr]: identifier assignment raises [ValueError]. *)
Theorem assign_province_ids_beyond_chr (provinces : list Extracted.t) :
  1114047 < len provinces ->
  assign_province_ids provinces = Raise ValueError.
Proof.
  intros Hbound. apply assign_ids_from_overflow; cbn; lia.
Qed.

Lemma assign_province_ids_beyond_chr_witness :
  assign_province_ids
    (repeat (Extracted.mk "" "" [] (0, 0) false) (Z.to_nat 1114048))
  = Raise ValueError.
Proof.
  apply assign_province_ids_beyond_chr.
  unfold len. rewrite repeat_length, Z2Nat.id by lia. lia.
Defined.

Lemma starts_with_self (s : list ascii) : Text.starts_with s s = true.
Proof.
  induction s as [| c s IH]; cbn; [reflexivity |].
  now rewrite Ascii.eqb_refl.
Qed.

Lemma contains_self (s : list ascii) : Text.contains s s = true.
Proof.
  destruct s as [| c s]; [reflexivity |].
  cbn [Text.contains]. now rewrite starts_with_self.
Qed.

(** X18.  Matching ignores case and the white space around a name: a
    province whose lowered title is the lowered and stripped name comes
    back marked coastal. *)
Theorem named_province_is_marked (provinces : list Province.t)
  (coastal_names : list string) (name : string) (p : Province.t) :
  In name coastal_names ->
  In p provinces ->
  coastal_key name
  = Text.lower (list_ascii_of_string (Province.original_title p)) ->
  In (with_coastal p true) (mark_coastal_provinces provinces coastal_names).
Proof.
  intros Hname Hp Hkey. unfold mark_coastal_provinces.
  apply in_map_iff. exists p. split; [| exact Hp].
  assert (Hmatch : title_matches (map coastal_key coastal_names) p = true).
  { unfold title_matches. apply existsb_exists.
    exists (coastal_key name). split; [now apply in_map |].
    rewrite Hkey. apply contains_self. }
  now rewrite Hmatch.
Qed.

Lemma named_province_is_marked_witness :
  In (Province.mk [65] "Al-Basrah" "p0" [] (0, 0) true)
    (mark_coastal_provinces
       [Province.mk [65] "Al-Basrah" "p0" [] (0, 0) false;
        Province.mk [66] "Maysan" "p1" [] (0, 0) false]
       ["  AL-BASRAH "]%string).
Proof.
  apply (named_province_is_marked
           [Province.mk [65] "Al-Basrah" "p0" [] (0, 0) false;
            Province.mk [66] "Maysan" "p1" [] (0, 0) false]
           ["  AL-BASRAH "]%string "  AL-BASRAH "%string
           (Province.mk [65] "Al-Basrah" "p0" [] (0, 0) false)).
  - now left.
  - now left.
  - vm_compute. reflexivity.
Defined.

Section ExtractionTitles.

Context {E : GeometryEngine}.

Lemma extract_province_fields (title province_id : string)
  (path_data : option string) (tolerance : float) (p : Extracted.t) :
  extract_province title province_id path_data tolerance = Appended p ->
  Extracted.original_title p = title /\ Extracted.original_id p = province_id.
Proof.
  unfold extract_province.
  destruct path_data as [[| c d] |]; try discriminate.
  destruct (parse_svg_path_to_coords (String c d)) as [raw | e];
    [| discriminate].
  destruct (List.length raw <? 3)%nat; [discriminate |].
  destruct (calculate_centroid (simplify_coords raw tolerance)) as [ctr | e];
    [| discriminate].
  intros H. injection H as <-. cbn. auto.
Qed.

Lemma extract_from_titles (paths : list path_element) (tolerance : float)
  (p : Extracted.t) :
  forall idx,
    In p (extract_from idx paths tolerance) ->
    exists i path,
      nth_error paths i = Some path
      /\ Extracted.original_title p
         = match path_title path with
           | Some t => t
           | None => ("Province_" ++ Text.decimal (idx + i + 1))%string
           end
      /\ Extracted.original_id p
         = match path_id path with
           | Some x => x
           | None => ("p" ++ Text.decimal (idx + i))%string
           end.
Proof.
  induction paths as [| path rest IH]; intros idx Hin; [contradiction |].
  cbn [extract_from] in Hin.
  assert (Hlater : In p (extract_from (S idx) rest tolerance) ->
                   exists i path0,
                     nth_error (path :: rest) i = Some path0
                     /\ Extracted.original_title p
                        = match path_title path0 with
                          | Some t => t
                          | None =>
                              ("Province_" ++ Text.decimal (idx + i + 1))%string
                          end
                     /\ Extracted.original_id p
                        = match path_id path0 with
                          | Some x => x
                          | None => ("p" ++ Text.decimal (idx + i))%string
                          end).
  { intros H. destruct (IH (S idx) H) as (i & path0 & Hnth & Ht & Hi).
    exists (S i), path0. split; [exact Hnth |].
    replace (idx + S i + 1)%nat with (S idx + i + 1)%nat by lia.
    replace (idx + S i)%nat with (S idx + i)%nat by lia.
    auto. }
  match type of Hin with
  | context [extract_province ?t ?i ?d ?tol] =>
      destruct (extract_province t i d tol) as [q | | | e] eqn:Hrun;
      try (now apply Hlater)
  end.
  destruct Hin as [<- | Hin]; [| now apply Hlater].
  apply extract_province_fields in Hrun as [Ht Hi].
  exists 0%nat, path. split; [reflexivity |].
  rewrite !Nat.add_0_r. auto.
Qed.

(** X19.  Every province that [extract_provinces_from_svg] returns comes
    from a path element and carries its title and identifier; an element
    without a title gives [Province_n], without an identifier [p] followed
    by n - 1, where n is the 1-based position of the element among all
    path elements, the skipped ones counted. *)
Theorem extracted_titles (view_box : string) (paths : list path_element)
  (tolerance : float) (p : Extracted.t) :
  In p (snd (extract_provinces view_box paths tolerance)) ->
  exists i path,
    nth_error paths i = Some path
    /\ Extracted.original_title p
       = match path_title path with
         | Some t => t
         | None => ("Province_" ++ Text.decimal (i + 1))%string
         end
    /\ Extracted.original_id p
       = match path_id path with
         | Some x => x
         | None => ("p" ++ Text.decimal i)%string
         end.
Proof.
  cbn [extract_provinces snd]. intros Hin.
  exact (extract_from_titles paths tolerance p 0 Hin).
Qed.

End ExtractionTitles.

Lemma extracted_titles_witness :
  exists i path,
    nth_error
      [mkPath None None (Some "M 5"%string);
       mkPath None None (Some "M 0 0 L 10 0 L 0 10"%string)] i = Some path
    /\ "Province_2"%string
       = match path_title path with
         | Some t => t
         | None => ("Province_" ++ Text.decimal (i + 1))%string
         end
    /\ "p1"%string
       = match path_id path with
         | Some x => x
         | None => ("p" ++ Text.decimal i)%string
         end.
Proof.
  apply (extracted_titles (E := Mini.engine Mini.keep) "0 0 10 10"
           [mkPath None None (Some "M 5"%string);
            mkPath None None (Some "M 0 0 L 10 0 L 0 10"%string)] 5%Q
           (Extracted.mk "Province_2" "p1" [(0, 0); (10, 0); (0, 10)]
              (3, 3) false)).
  vm_compute. now left.
Defined.

(** ** interactive_coastal_selection *)

Section InteractiveClaims.

Variable int_max_str_digits : nat.

Lemma indices_of_origin (pieces : list (list ascii)) :
  forall indices,
    indices_of int_max_str_digits pieces = Ok indices ->
    forall i, In i indices ->
      exists piece,
        In piece pieces
        /\ int_of_digits int_max_str_digits (Re.strip piece) = Ok (i + 1).
Proof.
  induction pieces as [| x rest IH]; intros indices Hrun i Hi.
  - cbn in Hrun. injection Hrun as <-. contradiction.
  - cbn [indices_of] in Hrun.
    destruct (int_of_digits int_max_str_digits (Re.strip x)) as [n | e] eqn:Hn;
      [| discriminate].
    cbn [bind] in Hrun.
    destruct (indices_of int_max_str_digits rest) as [others | e] eqn:Hrest;
      [| discriminate].
    cbn [bind] in Hrun. injection Hrun as <-.
    destruct Hi as [<- | Hi].
    + exists x. split; [now left |]. rewrite Hn. f_equal. lia.
    + destruct (IH others eq_refl i Hi) as (piece & Hpiece & Hint).
      exists piece. split; [now right | exact Hint].
Qed.

Lemma indices_of_failure (pieces : list (list ascii)) (piece : list ascii)
  (e : exn) :
  In piece pieces ->
  int_of_digits int_max_str_digits (Re.strip piece) = Raise e ->
  exists e', indices_of int_max_str_digits pieces = Raise e'.
Proof.
  induction pieces as [| x rest IH]; intros Hin Hraise; [contradiction |].
  cbn [indices_of].
  destruct (int_of_digits int_max_str_digits (Re.strip x)) as [n | e0] eqn:Hn;
    [| cbn; eauto].
  cbn [bind].
  destruct Hin as [-> | Hin]; [congruence |].
  destruct (IH Hin Hraise) as [e' ->]. cbn. eauto.
Qed.

Lemma titles_at_origin (provinces : list Province.t) (indices : list Z)
  (name : string) :
  In name (titles_at provinces indices) ->
  exists i p,
    In i indices /\ 0 <= i < len provinces
    /\ nth_error provinces (Z.to_nat i) = Some p
    /\ Province.original_title p = name.
Proof.
  induction indices as [| i rest IH]; intros Hin; [contradiction |].
  cbn [titles_at] in Hin.
  assert (Hlater : In name (titles_at provinces rest) ->
                   exists j p,
                     In j (i :: rest) /\ 0 <= j < len provinces
                     /\ nth_error provinces (Z.to_nat j) = Some p
                     /\ Province.original_title p = name).
  { intros H. destruct (IH H) as (j & p & Hj & Hrest).
    exists j, p. split; [now right | exact Hrest]. }
  destruct ((0 <=? i) && (i <? len provinces)) eqn:Hrange; [| auto].
  apply andb_true_iff in Hrange as [Hlo Hhi].
  apply Z.leb_le in Hlo. apply Z.ltb_lt in Hhi.
  destruct (nth_error provinces (Z.to_nat i)) as [p |] eqn:Hp; [| auto].
  destruct Hin as [<- | Hin]; [| auto].
  exists i, p. split; [now left | auto].
Qed.

(** X20.  When a line of digits, commas and white space is accepted, every
    returned name is the title of the province at a 1-based position typed
    on the line; positions outside 1..len(provinces), 0 among them, select
    nothing. *)
Theorem selected_by_position (provinces : list Province.t) (line : string)
  (names : list string) :
  forallb is_selection_char (Re.strip (list_ascii_of_string line)) = true ->
  read_selection int_max_str_digits provinces line = Selected names ->
  forall name, In name names ->
    exists piece k p,
      In piece (split_commas (Re.strip (list_ascii_of_string line)))
      /\ int_of_digits int_max_str_digits (Re.strip piece) = Ok k
      /\ 1 <= k <= len provinces
      /\ nth_error provinces (Z.to_nat (k - 1)) = Some p
      /\ Province.original_title p = name.
Proof.
  intros Hnumeric Hrun name Hname. unfold read_selection in Hrun.
  destruct (Re.strip (list_ascii_of_string line)) as [| c user_input] eqn:Hline.
  - injection Hrun as <-. contradiction.
  - rewrite Hnumeric in Hrun.
    destruct (indices_of int_max_str_digits (split_commas (c :: user_input)))
      as [indices | e] eqn:Hindices; [| discriminate].
    injection Hrun as <-.
    apply titles_at_origin in Hname as (i & p & Hi & Hrange & Hp & Htitle).
    destruct (indices_of_origin _ _ Hindices i Hi) as (piece & Hpiece & Hint).
    exists piece, (i + 1), p. split; [exact Hpiece |].
    split; [exact Hint |]. split; [lia |].
    replace (i + 1 - 1) with i by lia. auto.
Qed.

(** X21.  A line of digits, commas and white space with an empty item (a
    doubled or trailing comma) is not accepted: the loop goes on to the
    next line. *)
Theorem empty_item_asks_again (provinces : list Province.t) (line : string)
  (rest : list string) (piece : list ascii) :
  forallb is_selection_char (Re.strip (list_ascii_of_string line)) = true ->
  In piece (split_commas (Re.strip (list_ascii_of_string line))) ->
  Re.strip piece = [] ->
  Re.strip (list_ascii_of_string line) <> [] ->
  interactive_coastal_selection int_max_str_digits provinces (line :: rest)
  = interactive_coastal_selection int_max_str_digits provinces rest.
Proof.
  intros Hnumeric Hpiece Hblank Hne.
  cbn [interactive_coastal_selection]. unfold read_selection.
  destruct (Re.strip (list_ascii_of_string line)) as [| c user_input] eqn:Hline;
    [congruence |].
  rewrite Hnumeric.
  destruct (indices_of_failure (split_commas (c :: user_input)) piece
              ValueError Hpiece) as [e' ->]; [now rewrite Hblank |].
  reflexivity.
Qed.

End InteractiveClaims.

Lemma selected_by_position_witness :
  exists piece k p,
    In piece (split_commas (Re.strip (list_ascii_of_string " 0, 2 ,7")))
    /\ int_of_digits 4300 (Re.strip piece) = Ok k
    /\ 1 <= k <= len [Province.mk [65] "Al-Basrah" "p0" [] (0, 0) false;
                      Province.mk [66] "Maysan" "p1" [] (0, 0) false]
    /\ nth_error [Province.mk [65] "Al-Basrah" "p0" [] (0, 0) false;
                  Province.mk [66] "Maysan" "p1" [] (0, 0) false]
         (Z.to_nat (k - 1)) = Some p
    /\ Province.original_title p = "Maysan"%string.
Proof.
  apply (selected_by_position 4300
           [Province.mk [65] "Al-Basrah" "p0" [] (0, 0) false;
            Province.mk [66] "Maysan" "p1" [] (0, 0) false]
           " 0, 2 ,7" ["Maysan"]%string).
  - vm_compute. reflexivity.
  - vm_compute. reflexivity.
  - now left.
Defined.

Lemma empty_item_asks_again_witness :
  interactive_coastal_selection 4300
    [Province.mk [65] "Al-Basrah" "p0" [] (0, 0) false]
    ["1,,2"; "1"]%string
  = interactive_coastal_selection 4300
      [Province.mk [65] "Al-Basrah" "p0" [] (0, 0) false]
      ["1"]%string.
Proof.
  apply (empty_item_asks_again 4300 _ "1,,2" ["1"]%string []).
  - vm_compute. reflexivity.
  - vm_compute. auto.
  - reflexivity.
  - vm_compute. discriminate.
Defined.
